(** * Verification of delayqueue-rs (src/src/lib.rs)

    The library is a delay queue: a [Mutex<DelayQueueInner<T>>] holding a
    [BinaryHeap<Reverse<Arc<T>>>] and a leader slot [Option<ThreadId>], plus
    a [Condvar] named [available].

    The development has three layers:
    - [Heap]: the store, [std::collections::BinaryHeap] of [Reverse<_>]
      items, i.e. a min-heap on [T], on a [list T] with its [push], [pop],
      [peek] and the [sift_up] / [sift_down_to_bottom] of the standard
      library (a [Hole] move is written as a swap of two slots);
    - [Queue]: [DelayQueueInner], and the critical sections of
      [DelayQueue::put] and [DelayQueue::take] as pure functions of the
      locked state;
    - the system: threads with their program points, the condition
      variable (wait, wait_for, notify_one) and a clock, as a labelled
      step relation. *)

From stdpp Require Import base list gmap.
From Stdlib Require Import ZArith Lia Sorted.
From Stdlib Require Strings.String.

(* ------------------------------------------------------------------ *)
(** ** The item order *)

(** [T: Ord].  [le a b] is [a <= b].  The comparison of two
    [Reverse<Arc<T>>] values is the reversed comparison of the items, so
    the [BinaryHeap] (a max-heap) keeps the smallest item on top. *)
Section Heap.
Context {T : Type} (le : T -> T -> bool).

(** Parent and children positions, as in [BinaryHeap]:
    [parent = (hole.pos() - 1) / 2], first child [2 * pos + 1]. *)
Definition parent (i : nat) : nat := (i - 1) / 2.

(** Exchange of two slots: what [Hole::move_to] amounts to once the hole
    is filled again. *)
Definition swap (d : list T) (i j : nat) : list T :=
  match d !! i, d !! j with
  | Some a, Some b => <[i:=b]> (<[j:=a]> d)
  | _, _ => d
  end.

(** [BinaryHeap::sift_up(start, pos)]: the element at [pos] moves up while
    it is strictly smaller than its parent
    ([if hole.element() <= hole.get(parent) { break; }] on [Reverse]
    values, i.e. stop when [parent <= element]). *)
Fixpoint sift_up_fuel (fuel : nat) (start pos : nat) (d : list T)
  : list T :=
  match fuel with
  | O => d
  | S f =>
      if start <? pos then
        let p := parent pos in
        match d !! pos, d !! p with
        | Some e, Some pe =>
            if le pe e then d else sift_up_fuel f start p (swap d pos p)
        | _, _ => d
        end
      else d
  end.

Definition sift_up (start pos : nat) (d : list T) : list T :=
  sift_up_fuel (S pos) start pos d.

(** The loop of [BinaryHeap::sift_down_to_bottom(pos)]:
    {v
    let end = self.len();
    let mut child = 2 * hole.pos() + 1;
    while child <= end.saturating_sub(2) {
        child += (hole.get(child) <= hole.get(child + 1)) as usize;
        hole.move_to(child);
        child = 2 * hole.pos() + 1;
    }
    if child == end - 1 { hole.move_to(child); }
    v}
    On [Reverse] values [get(child) <= get(child + 1)] is
    [d[child + 1] <= d[child]] on items: the hole follows the smaller
    child.  Subtraction on [nat] saturates like [saturating_sub].
    Returns the final hole position and the array. *)
Fixpoint sift_down_fuel (fuel : nat) (pos : nat) (d : list T)
  : nat * list T :=
  match fuel with
  | O => (pos, d)
  | S f =>
      let child := 2 * pos + 1 in
      if child <=? length d - 2 then
        let c :=
          match d !! child, d !! (child + 1) with
          | Some a, Some b => if le b a then child + 1 else child
          | _, _ => child
          end in
        sift_down_fuel f c (swap d pos c)
      else if child =? length d - 1 then (child, swap d pos child)
      else (pos, d)
  end.

(** [sift_down_to_bottom(pos)] ends with [self.sift_up(start, pos)]. *)
Definition sift_down_to_bottom (pos : nat) (d : list T) : list T :=
  let '(p, d') := sift_down_fuel (length d) pos d in
  sift_up pos p d'.

(** [BinaryHeap::push]: [self.data.push(item); self.sift_up(0, old_len)]. *)
Definition push (d : list T) (x : T) : list T :=
  sift_up 0 (length d) (d ++ [x]).

(** [BinaryHeap::peek]: [self.data.get(0)]. *)
Definition peek (d : list T) : option T := d !! 0.

(** [BinaryHeap::pop]:
    {v
    self.data.pop().map(|mut item| {
        if !self.is_empty() {
            swap(&mut item, &mut self.data[0]);
            self.sift_down_to_bottom(0);
        }
        item
    })
    v} *)
Definition pop (d : list T) : option (T * list T) :=
  match last d with
  | None => None
  | Some item =>
      let rest := removelast d in
      match rest !! 0 with
      | None => Some (item, rest)
      | Some top => Some (top, sift_down_to_bottom 0 (<[0:=item]> rest))
      end
  end.

(** A sequence of store operations, as [take] and [put] issue them:
    [BinaryHeap::push], and [BinaryHeap::pop] (which leaves an empty heap
    as it is). *)
Inductive store_op := OpPush (x : T) | OpPop.

Fixpoint run_ops (ops : list store_op) (d : list T) : list T :=
  match ops with
  | [] => d
  | OpPush x :: ops' => run_ops ops' (push d x)
  | OpPop :: ops' =>
      match pop d with
      | Some (_, d') => run_ops ops' d'
      | None => run_ops ops' d
      end
  end.

(** Every slot below the root holds an item no smaller than its parent. *)
Definition heap_ok (d : list T) : Prop :=
  forall i a b, 0 < i -> d !! parent i = Some a -> d !! i = Some b ->
  le a b = true.

(** Heap order everywhere except on the edge from [pos] to its parent,
    and the parent of [pos] is below the children of [pos]: the loop
    invariant of [sift_up]. *)
Definition heap_except (d : list T) (pos : nat) : Prop :=
  (forall i a b, 0 < i -> i <> pos ->
     d !! parent i = Some a -> d !! i = Some b -> le a b = true) /\
  (0 < pos -> forall c g x, 0 < c -> parent c = pos ->
     d !! parent pos = Some g -> d !! c = Some x -> le g x = true).

(** Heap order on every edge that does not touch [pos]; the parent of
    [pos] is below the children of [pos]: the loop invariant of the
    descent in [sift_down_to_bottom]. *)
Definition down_ok (d : list T) (pos : nat) : Prop :=
  (forall i a b, 0 < i -> i <> pos -> parent i <> pos ->
     d !! parent i = Some a -> d !! i = Some b -> le a b = true) /\
  (0 < pos -> forall c g x, 0 < c -> parent c = pos ->
     d !! parent pos = Some g -> d !! c = Some x -> le g x = true).

End Heap.

(* ------------------------------------------------------------------ *)
(** ** [DelayQueueInner] and the critical sections of [put] and [take] *)

(** [std::thread::ThreadId]: an identifier, distinct for distinct
    threads. *)
Abbreviation ThreadId := nat (only parsing).

(** [Option::is_none] and [Option::is_some]. *)
Definition is_none {A} (o : option A) : bool :=
  match o with None => true | Some _ => false end.
Definition is_some {A} (o : option A) : bool :=
  match o with None => false | Some _ => true end.

Section Queue.
Context {T : Type} (le : T -> T -> bool).
(** [PartialEq::eq] on items, used by the [==] of [put]. *)
Context (eqb : T -> T -> bool).
(** [Delayed::delayed(&self) -> i64]: the remaining delay of an item,
    read against the current clock value [now]. *)
Context (delayed : T -> Z -> Z).

(** [struct DelayQueueInner { queue, current_thread }]. *)
Record Inner := mkInner {
  queue : list T;
  current_thread : option ThreadId
}.

(** [DelayQueueInner::peek]: [self.queue.peek()] and unwrap the
    [Reverse]. *)
Definition inner_peek (s : Inner) : option T := peek (queue s).

(** The critical section of [DelayQueue::put] (the lock is held for the
    whole body):
    {v
    queue.push(t.clone());
    if queue.peek() == Some(&t) { self.available.notify_one(); }
    v}
    The boolean is [true] exactly when [notify_one] is called. *)
Definition put (t : T) (s : Inner) : Inner * bool :=
  let q := push le (queue s) t in
  let notify :=
    match peek q with
    | Some h => eqb h t
    | None => false
    end in
  (mkInner q (current_thread s), notify).

(** How one pass of the [take] loop body ends. *)
Inductive outcome :=
| OWait                          (* [avaliable.wait(&mut guard)] *)
| OWaitFor (dur : Z)             (* [avaliable.wait_for(&mut guard, dur)] *)
| OReturn (x : T) (notify : bool) (* [return result.0], after
                                     [notify_one] when [notify] *)
| OPanic.                        (* [guard.queue.pop().unwrap()] on [None] *)

(** One pass of the [loop] of [DelayQueue::take], run by thread [tid]
    with the lock held, at clock value [now], up to the next wait or the
    return:
    {v
    match guard.peek() {
        None => { avaliable.wait(&mut guard); }
        Some(first) => {
            let delayed = first.delayed();
            if delayed <= 0 {
                let result = guard.queue.pop().unwrap();
                if guard.current_thread.is_none() && guard.peek().is_some() {
                    avaliable.notify_one();
                }
                return result.0;
            }
            match guard.current_thread {
                Some(_) => { avaliable.wait(&mut guard); }
                None => {
                    guard.current_thread = Some(thread_id);
                    avaliable.wait_for(&mut guard, Duration::from_nanos(delayed as u64));
                    ...
    v}
    [delayed as u64] is the value itself here, as [delayed > 0]. *)
Definition take_body (tid : ThreadId) (now : Z) (s : Inner)
  : Inner * outcome :=
  match inner_peek s with
  | None => (s, OWait)
  | Some first =>
      let dl := delayed first now in
      if (dl <=? 0)%Z then
        match pop le (queue s) with
        | None => (s, OPanic)
        | Some (result, q) =>
            let s1 := mkInner q (current_thread s) in
            let notify :=
              is_none (current_thread s1) && is_some (inner_peek s1) in
            (s1, OReturn result notify)
        end
      else
        match current_thread s with
        | Some _ => (s, OWait)
        | None => (mkInner (queue s) (Some tid), OWaitFor dl)
        end
  end.

(** The code after [wait_for] returns (lock held again):
    {v
    if guard.current_thread == Some(thread_id) { guard.current_thread = None }
    v} *)
Definition after_wait_for (tid : ThreadId) (s : Inner) : Inner :=
  if decide (current_thread s = Some tid)
  then mkInner (queue s) None
  else s.

End Queue.

Arguments store_op : clear implicits.
Arguments Inner : clear implicits.
Arguments outcome : clear implicits.
Arguments mkInner {T} _ _.
Arguments OWait {T}.
Arguments OWaitFor {T} _.
Arguments OPanic {T}.


(* ------------------------------------------------------------------ *)
(** ** Threads, the condition variable and the clock *)

(** Where a thread is, with respect to the queue. *)
Inductive tstate (T : Type) :=
| Idle                 (* not inside [put] or [take] *)
| Running              (* inside [take], about to (re)take the lock and run
                          the loop body *)
| WaitIndef            (* blocked in [avaliable.wait(&mut guard)] *)
| WaitTimed (until : Z) (* blocked in [avaliable.wait_for], times out at
                          clock value [until] *)
| AfterTimed           (* returned from [wait_for], about to take the
                          lock and run the code after it *)
| Panicked.            (* [take] panicked *)
Arguments Idle {T}.
Arguments Running {T}.
Arguments WaitIndef {T}.
Arguments WaitTimed {T} _.
Arguments AfterTimed {T}.
Arguments Panicked {T}.

Section System.
Context {T : Type} (le : T -> T -> bool) (eqb : T -> T -> bool)
  (delayed : T -> Z -> Z).

(** The whole system: the state behind the [Mutex], the clock, and the
    program point of every thread. *)
Record Sys := mkSys {
  inner : Inner T;
  now : Z;
  threads : ThreadId -> tstate T
}.

Definition upd (th : ThreadId -> tstate T) (i : ThreadId) (v : tstate T)
  : ThreadId -> tstate T :=
  fun j => if decide (j = i) then v else th j.

Definition waiting (ts : tstate T) : Prop :=
  match ts with WaitIndef | WaitTimed _ => True | _ => False end.

(** [Condvar::notify_one]: wakes one thread blocked on the condition
    variable, if there is one; a woken thread then has to take the lock
    again.  Which waiter is woken is not specified. *)
Inductive notify_one (th : ThreadId -> tstate T)
  : (ThreadId -> tstate T) -> Prop :=
| wake_indef i : th i = WaitIndef -> notify_one th (upd th i Running)
| wake_timed i u : th i = WaitTimed u -> notify_one th (upd th i AfterTimed)
| wake_nobody : (forall i, ~ waiting (th i)) -> notify_one th th.

(** [if cond { available.notify_one() }]. *)
Definition signal (b : bool) (th th' : ThreadId -> tstate T) : Prop :=
  if b then notify_one th th' else th' = th.

(** What thread [tid] does after a pass of the loop body. *)
Definition after_body (tid : ThreadId) (tnow : Z) (o : outcome T)
  (th th' : ThreadId -> tstate T) : Prop :=
  match o with
  | OWait => th' = upd th tid WaitIndef
  | OWaitFor d => th' = upd th tid (WaitTimed (tnow + d)%Z)
  | OReturn _ b => signal b (upd th tid Idle) th'
  | OPanic => th' = upd th tid Panicked
  end.

Definition ret_of (o : outcome T) : option T :=
  match o with OReturn x _ => Some x | _ => None end.

(** Step labels: the acting thread and, for a pass of the [take] loop,
    the item returned if the call returned. *)
Inductive label :=
| LPut (tid : ThreadId) (t : T)
| LStart (tid : ThreadId)
| LBody (tid : ThreadId) (r : option T)
| LResume (tid : ThreadId) (r : option T)
| LTimeout (tid : ThreadId)
| LTick.

(** The [take] call of thread [tid] returned [x] in this step. *)
Definition returned (l : label) : option (ThreadId * T) :=
  match l with
  | LBody tid (Some x) | LResume tid (Some x) => Some (tid, x)
  | _ => None
  end.

(** Critical sections are atomic: the [Mutex] serialises them, and a
    wait releases the lock in the same step that ends the section. *)
Inductive step : Sys -> label -> Sys -> Prop :=
| st_put s tid t inn' b th' :
    threads s tid = Idle ->
    put le eqb t (inner s) = (inn', b) ->
    signal b (threads s) th' ->
    step s (LPut tid t) (mkSys inn' (now s) th')
| st_start s tid :
    threads s tid = Idle ->
    step s (LStart tid) (mkSys (inner s) (now s) (upd (threads s) tid Running))
| st_body s tid inn' o th' :
    threads s tid = Running ->
    take_body le delayed tid (now s) (inner s) = (inn', o) ->
    after_body tid (now s) o (threads s) th' ->
    step s (LBody tid (ret_of o)) (mkSys inn' (now s) th')
| st_resume s tid inn' o th' :
    threads s tid = AfterTimed ->
    take_body le delayed tid (now s) (after_wait_for tid (inner s)) = (inn', o) ->
    after_body tid (now s) o (threads s) th' ->
    step s (LResume tid (ret_of o)) (mkSys inn' (now s) th')
| st_timeout s tid u :
    threads s tid = WaitTimed u -> (u <= now s)%Z ->
    step s (LTimeout tid)
      (mkSys (inner s) (now s) (upd (threads s) tid AfterTimed))
| st_tick s n :
    (now s <= n)%Z ->
    step s LTick (mkSys (inner s) n (threads s)).

(** [DelayQueue::default()]: empty heap, no leader, no thread inside. *)
Definition init (t0 : Z) : Sys :=
  mkSys (mkInner [] None) t0 (fun _ => Idle).

Inductive reachable : Sys -> Prop :=
| reach_init t0 : reachable (init t0)
| reach_step s l s' : reachable s -> step s l s' -> reachable s'.

Inductive steps : Sys -> list label -> Sys -> Prop :=
| steps_nil s : steps s [] s
| steps_cons s l s1 ls s2 :
    step s l s1 -> steps s1 ls s2 -> steps s (l :: ls) s2.

Definition leader_state (ts : tstate T) : Prop :=
  match ts with WaitTimed _ | AfterTimed => True | _ => False end.

(** Every thread is unchanged, or woken from a wait. *)
Definition woken (th th' : ThreadId -> tstate T) : Prop :=
  forall j, th' j = th j \/ (th j = WaitIndef /\ th' j = Running) \/
    (exists u, th j = WaitTimed u /\ th' j = AfterTimed).

(** The invariant of reachable states: the heap order, the leader slot
    names exactly the thread in (or woken from) its timed wait, no thread
    has panicked. *)
Definition Inv (s : Sys) : Prop :=
  heap_ok le (queue (inner s)) /\
  (forall j, current_thread (inner s) = Some j <-> leader_state (threads s j)) /\
  (forall j, threads s j <> Panicked).

End System.


Arguments Sys : clear implicits.
Arguments label : clear implicits.

(* ------------------------------------------------------------------ *)
(** ** Runs *)

Section Runs.
Context {T : Type}.

(** The item a step hands to [put], and the item a step hands back from
    [take]. *)
Definition put_item (l : label T) : option T :=
  match l with LPut _ t => Some t | _ => None end.

Definition returned_item (l : label T) : option T :=
  match returned l with Some (_, x) => Some x | None => None end.

(** [n] successive [BinaryHeap::pop]s, the items in the order they come out. *)
Fixpoint drain (le : T -> T -> bool) (n : nat) (d : list T) : list T :=
  match n with
  | O => []
  | S n' =>
      match pop le d with
      | Some (x, d') => x :: drain le n' d'
      | None => []
      end
  end.

End Runs.

(* ------------------------------------------------------------------ *)
(** ** The items of the test suite *)

(** [struct Task { deadline: i64, message: String }] of the tests and of
    [examples/simple.rs], seen through its deadline: [Ord] compares the
    deadlines, [delayed] is [self.deadline - now]. *)
Definition task_le (a b : Z) : bool := (a <=? b)%Z.
Definition task_eq (a b : Z) : bool := (a =? b)%Z.
Definition task_delayed (deadline now : Z) : Z := (deadline - now)%Z.

(** The full [Task] of the tests and of the example.  [PartialEq] and [Eq]
    are derived, so [==] compares both fields; [Ord] is written by hand and
    compares the deadlines only. *)
Record Task := mkTask { deadline : Z; message : String.string }.

(** Two messages, for the examples. *)
Module TaskMessages.
Import Stdlib.Strings.String.
Definition msg_a : string := "a".
Definition msg_b : string := "b".
End TaskMessages.
Import TaskMessages.

(** [impl Ord for Task]: [self.deadline.cmp(&other.deadline)]. *)
Definition Task_le (a b : Task) : bool := (deadline a <=? deadline b)%Z.

(** [#[derive(PartialEq)]]: field by field. *)
Definition Task_eqb (a b : Task) : bool :=
  ((deadline a =? deadline b)%Z && String.eqb (message a) (message b))%bool.

(** [impl Delayed for Task]: [self.deadline - now]. *)
Definition Task_delayed (t : Task) (now : Z) : Z := (deadline t - now)%Z.

(** ** The latency histogram of the test and of [examples/simple.rs]

    The counts are [i32]; [+=] is written with the wrap-around of a release
    build ([wrap_i32]).  The diffs, [(now - task.deadline) / 1000], come from
    the clock and are the input of the model.  Iterating a [HashMap] visits
    its entries in an unspecified order: [iter] is that order, any
    permutation of the entries. *)
Definition wrap_i32 (z : Z) : Z := ((z + 2 ^ 31) mod 2 ^ 32 - 2 ^ 31)%Z.

(** [*map.entry(k).or_default() += v]. *)
Definition entry_add (m : gmap Z Z) (k v : Z) : gmap Z Z :=
  <[k := wrap_i32 (default 0%Z (m !! k) + v)]> m.

(** The [if diff <= 100 { .. } else if ..] chain: the key of the bucket. *)
Definition bucket (diff : Z) : Z :=
  if (diff <=? 100)%Z then 100 else
  if (diff <=? 200)%Z then 200 else
  if (diff <=? 300)%Z then 300 else
  if (diff <=? 400)%Z then 400 else
  if (diff <=? 500)%Z then 500 else
  if (diff <=? 600)%Z then 600 else 1000.

(** The body of one consumer thread, one diff per [take]. *)
Definition consumer_map (diffs : list Z) : gmap Z Z :=
  fold_left (fun m diff => entry_add m (bucket diff) 1) diffs ∅.

(** The sum of the counts in a list of entries. *)
Definition sum_values (l : list (Z * Z)) : Z :=
  foldr (fun kv acc => (kv.2 + acc)%Z) 0%Z l.

(** Every count of a map is non-negative. *)
Definition nonneg_map (m : gmap Z Z) : Prop :=
  forall k v, m !! k = Some v -> (0 <= v)%Z.

Section Histogram.
Variable iter : gmap Z Z -> list (Z * Z).

(** [for map in maps { for (k, v) in map { *results.entry(k).or_default() += v; } }] *)
Definition merge_maps (maps : list (gmap Z Z)) : gmap Z Z :=
  fold_left (fun results m =>
    fold_left (fun acc kv => entry_add acc kv.1 kv.2) (iter m) results) maps ∅.

(** [for (k, v) in results { result_count += v; .. }] *)
Definition result_count (results : gmap Z Z) : Z :=
  fold_left (fun c kv => wrap_i32 (c + kv.2)) (iter results) 0%Z.

End Histogram.

(** The scenario of the spec: at time 0 a producer (thread 0) puts the
    tasks with deadlines 50 and 10, in that order; one consumer (thread 1)
    calls [take] twice.  [sc_k] is the state after [k] steps. *)
Module Scenario.
Local Open Scope Z_scope.

Definition th_idle : ThreadId -> tstate Z := fun _ => Idle.
Definition sc_th3 := upd th_idle 1%nat Running.
Definition sc_th4 := upd sc_th3 1%nat (WaitTimed 10).
Definition sc_th6 := upd sc_th4 1%nat AfterTimed.
Definition sc_th7 := upd sc_th6 1%nat Idle.
Definition sc_th8 := upd sc_th7 1%nat Running.
Definition sc_th9 := upd sc_th8 1%nat (WaitTimed 50).
Definition sc_th11 := upd sc_th9 1%nat AfterTimed.
Definition sc_th12 := upd sc_th11 1%nat Idle.

Definition sc0 : Sys Z := init 0.
Definition sc1 : Sys Z := mkSys (mkInner [50] None) 0 th_idle.
Definition sc2 : Sys Z := mkSys (mkInner [10; 50] None) 0 th_idle.
Definition sc3 : Sys Z := mkSys (mkInner [10; 50] None) 0 sc_th3.
Definition sc4 : Sys Z := mkSys (mkInner [10; 50] (Some 1%nat)) 0 sc_th4.
Definition sc5 : Sys Z := mkSys (mkInner [10; 50] (Some 1%nat)) 10 sc_th4.
Definition sc6 : Sys Z := mkSys (mkInner [10; 50] (Some 1%nat)) 10 sc_th6.
Definition sc7 : Sys Z := mkSys (mkInner [50] None) 10 sc_th7.
Definition sc8 : Sys Z := mkSys (mkInner [50] None) 10 sc_th8.
Definition sc9 : Sys Z := mkSys (mkInner [50] (Some 1%nat)) 10 sc_th9.
Definition sc10 : Sys Z := mkSys (mkInner [50] (Some 1%nat)) 50 sc_th9.
Definition sc11 : Sys Z := mkSys (mkInner [50] (Some 1%nat)) 50 sc_th11.
Definition sc12 : Sys Z := mkSys (mkInner [] None) 50 sc_th12.

(** The labels of the consumer's two calls, from [sc2] to [sc12]. *)
Definition sc_run : list (label Z) :=
  [LStart 1; LBody 1 None; LTick; LTimeout 1; LResume 1 (Some 10);
   LStart 1; LBody 1 None; LTick; LTimeout 1; LResume 1 (Some 50)].

(** A second scenario, two consumers: thread 0 puts 50; thread 1 takes and
    waits as leader until 50; thread 2 takes and waits as follower; thread
    0 puts 10, which notifies thread 2; thread 2 waits again, while the
    leader still waits until 50.  [tw_k] is the state after [k] steps. *)
Definition tw_th2 := upd th_idle 1%nat Running.
Definition tw_th3 := upd tw_th2 1%nat (WaitTimed 50).
Definition tw_th4 := upd tw_th3 2%nat Running.
Definition tw_th5 := upd tw_th4 2%nat WaitIndef.
Definition tw_th6 := upd tw_th5 2%nat Running.
Definition tw_th7 := upd tw_th6 2%nat WaitIndef.

Definition tw2 : Sys Z := mkSys (mkInner [50] None) 0 tw_th2.
Definition tw3 : Sys Z := mkSys (mkInner [50] (Some 1%nat)) 0 tw_th3.
Definition tw4 : Sys Z := mkSys (mkInner [50] (Some 1%nat)) 0 tw_th4.
Definition tw5 : Sys Z := mkSys (mkInner [50] (Some 1%nat)) 0 tw_th5.
Definition tw6 : Sys Z := mkSys (mkInner [10; 50] (Some 1%nat)) 0 tw_th6.
Definition tw7 : Sys Z := mkSys (mkInner [10; 50] (Some 1%nat)) 0 tw_th7.

End Scenario.

Module HeapTests.
Definition h1 : list nat :=
  fold_left (push Nat.leb) [5; 3; 8; 1; 9; 2] [].
Example h1_val : h1 = [1; 3; 2; 5; 9; 8].
Proof. reflexivity. Qed.
Example h1_pop : pop Nat.leb h1 = Some (1, [2; 3; 8; 5; 9]).
Proof. reflexivity. Qed.
End HeapTests.

(* ------------------------------------------------------------------ *)
(** ** The heap invariant *)

Section HeapProofs.
Context {T : Type} (le : T -> T -> bool).
Hypothesis le_total : forall a b, le a b = true \/ le b a = true.
Hypothesis le_trans : forall a b c,
  le a b = true -> le b c = true -> le a c = true.

Lemma le_refl a : le a a = true.
Proof. by destruct (le_total a a). Qed.

Lemma le_not a b : le a b = false -> le b a = true.
Proof. intros H. destruct (le_total a b); congruence. Qed.

Lemma parent_lt i : 0 < i -> parent i < i.
Proof.
  intros H. unfold parent.
  pose proof (Nat.div_mod (i - 1) 2 ltac:(lia)).
  pose proof (Nat.mod_upper_bound (i - 1) 2 ltac:(lia)). lia.
Qed.

Lemma parent_cases i : 0 < i -> i = 2 * parent i + 1 \/ i = 2 * parent i + 2.
Proof.
  intros H. unfold parent.
  pose proof (Nat.div_mod (i - 1) 2 ltac:(lia)).
  pose proof (Nat.mod_upper_bound (i - 1) 2 ltac:(lia)). lia.
Qed.

Lemma parent_ge i : 0 < i -> 2 * parent i + 1 <= i.
Proof. intros H. destruct (parent_cases i H); lia. Qed.

Lemma swap_length (d : list T) i j : length (swap d i j) = length d.
Proof.
  unfold swap. destruct (d !! i), (d !! j); auto.
  by rewrite !length_insert.
Qed.

Lemma swap_perm (d : list T) i j : swap d i j ≡ₚ d.
Proof.
  unfold swap. destruct (d !! i) eqn:Hi, (d !! j) eqn:Hj; auto.
  by apply Permutation_insert_swap.
Qed.

Lemma swap_lookup_l (d : list T) i j a b :
  d !! i = Some a -> d !! j = Some b -> swap d i j !! i = Some b.
Proof.
  intros Hi Hj. unfold swap. rewrite Hi, Hj.
  apply list_lookup_insert_eq. rewrite length_insert.
  by eapply lookup_lt_Some.
Qed.

Lemma swap_lookup_r (d : list T) i j a b :
  d !! i = Some a -> d !! j = Some b -> swap d i j !! j = Some a.
Proof.
  intros Hi Hj. unfold swap. rewrite Hi, Hj.
  destruct (decide (i = j)) as [->|Hne].
  - rewrite list_lookup_insert_eq; [congruence|].
    rewrite length_insert. by eapply lookup_lt_Some.
  - rewrite list_lookup_insert_ne by done.
    apply list_lookup_insert_eq. by eapply lookup_lt_Some.
Qed.

Lemma swap_lookup_ne (d : list T) i j k :
  k <> i -> k <> j -> swap d i j !! k = d !! k.
Proof.
  intros Hi Hj. unfold swap.
  destruct (d !! i), (d !! j); auto.
  rewrite !list_lookup_insert_ne; auto.
Qed.

Lemma heap_except_ok (d : list T) pos :
  heap_except le d pos ->
  (pos = 0 \/ forall a b, d !! parent pos = Some a -> d !! pos = Some b ->
     le a b = true) ->
  heap_ok le d.
Proof.
  intros [H1 _] Hpos i a b Hi Ha Hb.
  destruct (decide (i = pos)) as [->|Hne].
  - destruct Hpos as [->|Hpos]; [lia|]. eauto.
  - eauto.
Qed.

Lemma sift_up_step (d : list T) pos e pe :
  0 < pos -> heap_except le d pos ->
  d !! pos = Some e -> d !! parent pos = Some pe -> le pe e = false ->
  heap_except le (swap d pos (parent pos)) (parent pos).
Proof.
  intros Hpos [H1 H2] He Hpe Hlt.
  pose proof (le_not _ _ Hlt) as Hep.
  pose proof (parent_lt pos Hpos) as Hp.
  set (p := parent pos) in *.
  split.
  - intros i a b Hi Hip Ha Hb.
    destruct (decide (i = pos)) as [->|Hipos].
    + fold p in Ha. rewrite (swap_lookup_r _ _ _ _ _ He Hpe) in Ha.
      rewrite (swap_lookup_l _ _ _ _ _ He Hpe) in Hb. congruence.
    + rewrite swap_lookup_ne in Hb by done.
      destruct (decide (parent i = pos)) as [Hq|Hq].
      * rewrite Hq, (swap_lookup_l _ _ _ _ _ He Hpe) in Ha.
        injection Ha as <-. eapply H2; eauto.
      * destruct (decide (parent i = p)) as [Hq'|Hq'].
        -- rewrite Hq', (swap_lookup_r _ _ _ _ _ He Hpe) in Ha.
           injection Ha as <-. apply (le_trans _ pe); auto.
           eapply H1; eauto. by rewrite Hq'.
        -- rewrite swap_lookup_ne in Ha by done. eauto.
  - intros Hp0 c g x Hc Hcp Hg Hx.
    pose proof (parent_lt p Hp0).
    rewrite swap_lookup_ne in Hg by lia.
    assert (Hgp : le g pe = true) by (apply (H1 p); auto; lia).
    destruct (decide (c = pos)) as [->|Hcpos].
    + rewrite (swap_lookup_l _ _ _ _ _ He Hpe) in Hx. congruence.
    + assert (c <> p) by (intros ->; lia).
      rewrite swap_lookup_ne in Hx by done.
      apply (le_trans _ pe); auto. eapply H1; eauto. by rewrite Hcp.
Qed.

Lemma sift_up_fuel_ok fuel pos (d : list T) :
  pos < fuel -> pos < length d -> heap_except le d pos ->
  heap_ok le (sift_up_fuel le fuel 0 pos d).
Proof.
  revert pos d. induction fuel as [|f IH]; intros pos d Hf Hlen Hex; [lia|].
  simpl. destruct (0 <? pos) eqn:Hpos.
  - apply Nat.ltb_lt in Hpos.
    pose proof (parent_lt pos Hpos).
    destruct (lookup_lt_is_Some_2 d pos Hlen) as [e He].
    destruct (lookup_lt_is_Some_2 d (parent pos) ltac:(lia)) as [pe Hpe].
    rewrite He, Hpe. destruct (le pe e) eqn:Hle.
    + apply (heap_except_ok _ pos Hex). right. congruence.
    + apply IH; [lia| rewrite swap_length; lia|].
      by eapply sift_up_step.
  - apply Nat.ltb_ge in Hpos.
    apply (heap_except_ok _ pos Hex). left. lia.
Qed.

Lemma sift_up_ok pos (d : list T) :
  pos < length d -> heap_except le d pos -> heap_ok le (sift_up le 0 pos d).
Proof. intros. apply sift_up_fuel_ok; auto. Qed.

Lemma sift_up_fuel_perm fuel start pos (d : list T) :
  sift_up_fuel le fuel start pos d ≡ₚ d.
Proof.
  revert pos d. induction fuel as [|f IH]; intros pos d; simpl; auto.
  destruct (start <? pos); auto.
  destruct (d !! pos), (d !! parent pos); auto.
  destruct (le _ _); auto.
  by rewrite IH, swap_perm.
Qed.


Lemma down_ok_leaf (d : list T) pos :
  down_ok le d pos -> length d <= 2 * pos + 1 -> heap_except le d pos.
Proof.
  intros [H1 H2] Hlen. split; auto.
  intros i a b Hi Hne Ha Hb.
  destruct (decide (parent i = pos)) as [Hq|Hq]; eauto.
  pose proof (parent_ge i Hi). apply lookup_lt_Some in Hb. lia.
Qed.

(** One step of the descent: the hole at [pos] takes the smaller child
    [c]. *)
Lemma down_step (d : list T) pos c x v :
  down_ok le d pos -> 0 < c -> parent c = pos ->
  d !! pos = Some x -> d !! c = Some v ->
  (forall i y, 0 < i -> parent i = pos -> i <> c -> d !! i = Some y ->
     le v y = true) ->
  down_ok le (swap d pos c) c.
Proof.
  intros [H1 H2] Hc Hcp Hx Hv Hmin.
  pose proof (parent_lt c Hc) as Hlt.
  split.
  - intros i a b Hi Hic Hpic Ha Hb.
    destruct (decide (i = pos)) as [->|Hipos].
    + rewrite (swap_lookup_l _ _ _ _ _ Hx Hv) in Hb. injection Hb as <-.
      pose proof (parent_lt pos Hi).
      rewrite swap_lookup_ne in Ha by lia.
      apply (H2 Hi c); auto.
    + rewrite swap_lookup_ne in Hb by done.
      destruct (decide (parent i = pos)) as [Hq|Hq].
      * rewrite Hq, (swap_lookup_l _ _ _ _ _ Hx Hv) in Ha.
        injection Ha as <-. eauto.
      * rewrite swap_lookup_ne in Ha by done. eauto.
  - intros _ c' g y Hc' Hc'p Hg Hy.
    rewrite Hcp, (swap_lookup_l _ _ _ _ _ Hx Hv) in Hg. injection Hg as <-.
    pose proof (parent_lt c' Hc').
    rewrite swap_lookup_ne in Hy by lia.
    apply (H1 c'); auto; try lia. by rewrite Hc'p.
Qed.

Lemma sift_down_fuel_S f pos (d : list T) :
  sift_down_fuel le (S f) pos d =
  let child := 2 * pos + 1 in
  if child <=? length d - 2 then
    let c :=
      match d !! child, d !! (child + 1) with
      | Some a, Some b => if le b a then child + 1 else child
      | _, _ => child
      end in
    sift_down_fuel le f c (swap d pos c)
  else if child =? length d - 1 then (child, swap d pos child)
  else (pos, d).
Proof. reflexivity. Qed.

Lemma sift_down_fuel_ok fuel pos (d : list T) :
  pos < length d -> length d <= pos + fuel -> down_ok le d pos ->
  let '(p, d') := sift_down_fuel le fuel pos d in
  p < length d' /\ heap_except le d' p.
Proof.
  revert pos d. induction fuel as [|f IH]; intros pos d Hpos Hfuel Hok; [lia|].
  rewrite sift_down_fuel_S; cbv zeta. destruct (2 * pos + 1 <=? length d - 2) eqn:Hc.
  - apply Nat.leb_le in Hc.
    destruct (lookup_lt_is_Some_2 d (2 * pos + 1) ltac:(lia)) as [a Ha].
    destruct (lookup_lt_is_Some_2 d (2 * pos + 1 + 1) ltac:(lia)) as [b Hb].
    destruct (lookup_lt_is_Some_2 d pos Hpos) as [x Hx].
    rewrite Ha, Hb.
    assert (Hp1 : parent (2 * pos + 1) = pos)
      by (unfold parent; replace (2 * pos + 1 - 1) with (pos * 2) by lia;
          apply Nat.div_mul; lia).
    assert (Hp2 : parent (2 * pos + 1 + 1) = pos)
      by (unfold parent; replace (2 * pos + 1 + 1 - 1) with (1 + pos * 2) by lia;
          rewrite Nat.div_add by lia; reflexivity).
    destruct (le b a) eqn:Hba.
    + apply IH; [rewrite swap_length; lia | rewrite swap_length; lia |].
      eapply down_step; eauto; try lia.
      intros i y Hi Hip Hne Hy.
      destruct (parent_cases i Hi) as [Hi'|Hi']; rewrite Hip in Hi'; subst i;
        [congruence | lia].
    + apply IH; [rewrite swap_length; lia | rewrite swap_length; lia |].
      pose proof (le_not _ _ Hba).
      eapply down_step; eauto; try lia.
      intros i y Hi Hip Hne Hy.
      destruct (parent_cases i Hi) as [Hi'|Hi']; rewrite Hip in Hi'; subst i;
        [lia | replace (2 * pos + 2) with (2 * pos + 1 + 1) in Hy by lia;
               congruence].
  - apply Nat.leb_gt in Hc.
    destruct (2 * pos + 1 =? length d - 1) eqn:He.
    + apply Nat.eqb_eq in He.
      destruct (lookup_lt_is_Some_2 d (2 * pos + 1) ltac:(lia)) as [a Ha].
      destruct (lookup_lt_is_Some_2 d pos Hpos) as [x Hx].
      assert (Hp1 : parent (2 * pos + 1) = pos)
        by (unfold parent; replace (2 * pos + 1 - 1) with (pos * 2) by lia;
            apply Nat.div_mul; lia).
      rewrite swap_length. split; [lia|].
      apply down_ok_leaf; [|rewrite swap_length; lia].
      eapply down_step; eauto; try lia.
      intros i y Hi Hip Hne Hy.
      apply lookup_lt_Some in Hy.
      destruct (parent_cases i Hi) as [Hi'|Hi']; rewrite Hip in Hi'; lia.
    + apply Nat.eqb_neq in He. split; auto.
      apply down_ok_leaf; auto. lia.
Qed.

Lemma sift_down_fuel_perm fuel pos (d : list T) :
  (sift_down_fuel le fuel pos d).2 ≡ₚ d.
Proof.
  revert pos d. induction fuel as [|f IH]; intros pos d; simpl; auto.
  destruct (_ <=? _).
  - by rewrite IH, swap_perm.
  - destruct (_ =? _); simpl; auto. apply swap_perm.
Qed.


Lemma heap_ok_snoc_inv (l : list T) x : heap_ok le (l ++ [x]) -> heap_ok le l.
Proof.
  intros H i a b Hi Ha Hb. apply (H i); auto; by apply lookup_app_l_Some.
Qed.

Lemma heap_min (d : list T) x :
  heap_ok le d -> d !! 0 = Some x -> forall i y, d !! i = Some y -> le x y = true.
Proof.
  intros Hok H0 i. induction i as [i IH] using (well_founded_induction lt_wf).
  intros y Hy. destruct (decide (i = 0)) as [->|Hi].
  - rewrite H0 in Hy. injection Hy as <-. apply le_refl.
  - pose proof (parent_lt i ltac:(lia)).
    apply lookup_lt_Some in Hy as Hlt.
    destruct (lookup_lt_is_Some_2 d (parent i) ltac:(lia)) as [z Hz].
    apply (le_trans _ z); [by apply (IH (parent i))|].
    apply (Hok i); auto; lia.
Qed.

Lemma push_perm (d : list T) x : push le d x ≡ₚ x :: d.
Proof.
  unfold push, sift_up. rewrite sift_up_fuel_perm.
  by rewrite Permutation_app_comm.
Qed.

Lemma push_ok (d : list T) x : heap_ok le d -> heap_ok le (push le d x).
Proof.
  intros Hok. unfold push. apply sift_up_ok.
  { rewrite length_app. simpl. lia. }
  split.
  - intros i a b Hi Hne Ha Hb.
    apply lookup_lt_Some in Hb as Hlt. rewrite length_app in Hlt. simpl in Hlt.
    pose proof (parent_lt i Hi).
    rewrite lookup_app_l in Ha, Hb by lia. eauto.
  - intros _ c g y Hc Hcp _ Hy.
    apply lookup_lt_Some in Hy. rewrite length_app in Hy. simpl in Hy.
    pose proof (parent_ge c Hc). lia.
Qed.

Lemma pop_None (d : list T) : pop le d = None <-> d = [].
Proof.
  unfold pop. split.
  - destruct (last d) eqn:Hl; [destruct (removelast d !! 0); discriminate|].
    intros _. by apply last_None.
  - intros ->. reflexivity.
Qed.

(** Shape of a non-empty heap seen by [pop]. *)
Lemma pop_Some (d : list T) top d' :
  pop le d = Some (top, d') ->
  (d = [top] /\ d' = []) \/
  (exists item tl, d = top :: tl ++ [item] /\
     d' = sift_down_to_bottom le 0 (item :: tl)).
Proof.
  unfold pop. destruct (last d) as [item|] eqn:Hl; [|discriminate].
  apply last_Some in Hl as [l' ->]. rewrite removelast_last.
  destruct l' as [|t tl]; simpl; intros H; injection H as <- <-; [by left|].
  right. by exists item, tl.
Qed.

Lemma pop_perm (d : list T) top d' :
  pop le d = Some (top, d') -> d ≡ₚ top :: d'.
Proof.
  intros [[-> ->]|(item & tl & -> & ->)]%pop_Some; [done|].
  unfold sift_down_to_bottom.
  destruct (sift_down_fuel le _ 0 _) as [p d1] eqn:Hsd.
  unfold sift_up. rewrite sift_up_fuel_perm.
  pose proof (sift_down_fuel_perm (length (item :: tl)) 0 (item :: tl)) as Hp.
  rewrite Hsd in Hp. simpl in Hp. rewrite Hp.
  constructor. by rewrite Permutation_app_comm.
Qed.

Lemma pop_peek (d : list T) top d' :
  pop le d = Some (top, d') -> peek d = Some top.
Proof. by intros [[-> ->]|(item & tl & -> & ->)]%pop_Some. Qed.

Lemma pop_ok (d : list T) top d' :
  heap_ok le d -> pop le d = Some (top, d') -> heap_ok le d'.
Proof.
  intros Hok [[-> ->]|(item & tl & -> & ->)]%pop_Some.
  { intros i a b Hi Ha Hb. rewrite lookup_nil in Hb. discriminate. }
  assert (Hrest : heap_ok le (top :: tl)).
  { apply (heap_ok_snoc_inv _ item). by rewrite <- app_comm_cons. }
  unfold sift_down_to_bottom.
  pose proof (sift_down_fuel_ok (length (item :: tl)) 0 (item :: tl)) as Hsd.
  destruct (sift_down_fuel le _ 0 _) as [p d1] eqn:Heq.
  destruct Hsd as [Hp Hex]; [simpl; lia | lia | |].
  - split; [|lia].
    intros i a b Hi Hne Hpi Ha Hb.
    destruct i as [|i]; [lia|].
    apply (Hrest (S i)); auto. destruct (parent (S i)); [lia|done].
  - by apply sift_up_ok.
Qed.

Lemma peek_min (d : list T) x :
  heap_ok le d -> peek d = Some x -> x ∈ d /\ forall y, y ∈ d -> le x y = true.
Proof.
  intros Hok Hx. split.
  - apply list_elem_of_lookup. by exists 0.
  - intros y [i Hy]%list_elem_of_lookup. by eapply heap_min.
Qed.

Lemma peek_None (d : list T) : peek d = None <-> d = [].
Proof. unfold peek. destruct d; simpl; split; congruence. Qed.

End HeapProofs.


(* ------------------------------------------------------------------ *)
(** ** Invariants of the system *)

Section SystemProofs.
Context {T : Type} (le : T -> T -> bool) (eqb : T -> T -> bool)
  (delayed : T -> Z -> Z).
(** [T: Ord]: a total order. *)
Hypothesis le_total : forall a b, le a b = true \/ le b a = true.
Hypothesis le_trans : forall a b c,
  le a b = true -> le b c = true -> le a c = true.
(** The contract of [Ord]: [a == b] exactly when [a.cmp(b) == Equal]. *)
Hypothesis eqb_spec : forall a b,
  eqb a b = true <-> le a b = true /\ le b a = true.

Lemma take_body_spec tid tnow (s : Inner T) s' o :
  take_body le delayed tid tnow s = (s', o) ->
  (queue s = [] /\ s' = s /\ o = OWait) \/
  (exists x, inner_peek s = Some x /\ (0 < delayed x tnow)%Z /\
     ((exists j, current_thread s = Some j) /\ s' = s /\ o = OWait \/
      current_thread s = None /\ s' = mkInner (queue s) (Some tid) /\
      o = OWaitFor (delayed x tnow))) \/
  (exists x q, inner_peek s = Some x /\ (delayed x tnow <= 0)%Z /\
     pop le (queue s) = Some (x, q) /\ s' = mkInner q (current_thread s) /\
     o = OReturn x (is_none (current_thread s) && is_some (peek q))).
Proof.
  unfold take_body, inner_peek. destruct (peek (queue s)) as [x|] eqn:Hp.
  - destruct (delayed x tnow <=? 0)%Z eqn:Hd.
    + apply Z.leb_le in Hd.
      destruct (pop le (queue s)) as [[r q]|] eqn:Hpop.
      * apply pop_peek in Hpop as Hr. rewrite Hp in Hr. injection Hr as <-.
        intros H. injection H as <- <-. right; right. eauto 10.
      * apply pop_None in Hpop. rewrite Hpop in Hp. discriminate.
    + apply Z.leb_gt in Hd.
      destruct (current_thread s) as [j|] eqn:Hc; intros H; injection H as <- <-;
        right; left; exists x; eauto 10.
  - intros H. injection H as <- <-. left. by rewrite <- peek_None.
Qed.

Lemma notify_one_woken (th th' : ThreadId -> tstate T) : notify_one th th' -> woken th th'.
Proof.
  intros Hn j. destruct Hn as [i Hi|i u Hi|]; unfold upd; auto.
  - destruct (decide (j = i)) as [->|]; auto.
  - destruct (decide (j = i)) as [->|]; eauto 10.
Qed.

Lemma signal_woken b (th th' : ThreadId -> tstate T) : signal b th th' -> woken th th'.
Proof.
  destruct b; simpl; [apply notify_one_woken|].
  intros ->. intros j. auto.
Qed.

Lemma woken_leader (th th' : ThreadId -> tstate T) j :
  woken th th' -> (leader_state (th' j) <-> leader_state (th j)).
Proof.
  intros Hw. destruct (Hw j) as [->|[[-> ->]|(u & -> & ->)]]; simpl; tauto.
Qed.

Lemma woken_panicked (th th' : ThreadId -> tstate T) j :
  woken th th' -> th j <> Panicked -> th' j <> Panicked.
Proof.
  intros Hw. destruct (Hw j) as [->|[[-> ->]|(u & -> & ->)]]; congruence.
Qed.

Lemma body_inv tid tnow (inn inn' : Inner T) o th th' :
  heap_ok le (queue inn) ->
  current_thread inn <> Some tid ->
  (forall j, j <> tid -> (current_thread inn = Some j <-> leader_state (th j))) ->
  (forall j, j <> tid -> th j <> Panicked) ->
  take_body le delayed tid tnow inn = (inn', o) ->
  after_body tid tnow o th th' ->
  heap_ok le (queue inn') /\
  (forall j, current_thread inn' = Some j <-> leader_state (th' j)) /\
  (forall j, th' j <> Panicked).
Proof.
  intros Hok Hnt Hlead Hpan Hb Ha.
  apply take_body_spec in Hb as
    [(_ & -> & ->)|[(x & _ & _ & [(_ & -> & ->)|(Hc & -> & ->)])|
      (x & q & _ & _ & Hpop & -> & ->)]]; simpl in Ha.
  - subst th'. split; [done|]. unfold upd.
    split; intros j; destruct (decide (j = tid)) as [->|]; simpl; auto.
    split; [done|tauto].
  - subst th'. split; [done|]. unfold upd.
    split; intros j; destruct (decide (j = tid)) as [->|]; simpl; auto.
    split; [done|tauto].
  - subst th'. split; [done|]. unfold upd. simpl.
    split; intros j; destruct (decide (j = tid)) as [->|]; simpl; auto.
    + tauto.
    + rewrite <- Hlead by done. rewrite Hc. split; congruence.
  - apply signal_woken in Ha. simpl. split; [by eapply pop_ok|].
    split; intros j.
    + rewrite (woken_leader _ _ _ Ha). unfold upd.
      destruct (decide (j = tid)) as [->|]; simpl; auto.
      split; [done|tauto].
    + apply (woken_panicked _ _ _ Ha). unfold upd.
      destruct (decide (j = tid)); [done|auto].
Qed.

Lemma Inv_init t0 : Inv le (init t0).
Proof.
  split; [|split]; simpl.
  - intros i a b _ _ Hb. rewrite lookup_nil in Hb. discriminate.
  - intros j. split; [discriminate|done].
  - done.
Qed.

Lemma Inv_step s l s' :
  Inv le s -> step le eqb delayed s l s' -> Inv le s'.
Proof.
  intros (Hok & Hlead & Hpan) Hs.
  destruct Hs as [s tid t inn' b th' Hi Hput Hsig|s tid Hi
                 |s tid inn' o th' Hi Hb Ha|s tid inn' o th' Hi Hb Ha
                 |s tid u Hi Hu|s n Hn]; simpl.
  - unfold put in Hput. injection Hput as <- _. apply signal_woken in Hsig.
    split; [by apply push_ok|]. simpl. split; intros j.
    + rewrite (woken_leader _ _ _ Hsig). apply Hlead.
    + by apply (woken_panicked _ _ _ Hsig).
  - split; [done|]. unfold upd; simpl. split; intros j;
      destruct (decide (j = tid)) as [->|]; auto;
      try (rewrite Hlead, Hi; simpl; tauto); done.
  - eapply body_inv; eauto.
    + rewrite Hlead, Hi. simpl. tauto.
  - assert (Hc : current_thread (inner s) = Some tid) by (apply Hlead; by rewrite Hi).
    unfold after_wait_for in Hb. rewrite decide_True in Hb by done.
    eapply (body_inv tid (now s) (mkInner (queue (inner s)) None)); eauto;
      simpl; try done.
    intros j Hj. rewrite <- Hlead, Hc. split; congruence.
  - split; [done|]. unfold upd; simpl. split; intros j;
      destruct (decide (j = tid)) as [->|]; auto;
      try (rewrite Hlead, Hi; simpl; tauto); done.
  - by split; [|split].
Qed.

Lemma reachable_Inv s : reachable le eqb delayed s -> Inv le s.
Proof.
  induction 1; [apply Inv_init|]. by eapply Inv_step.
Qed.


Lemma take_body_return tid tnow (inn inn' : Inner T) x b :
  take_body le delayed tid tnow inn = (inn', OReturn x b) ->
  inner_peek inn = Some x /\ (delayed x tnow <= 0)%Z /\
  pop le (queue inn) = Some (x, queue inn') /\
  current_thread inn' = current_thread inn /\
  b = is_none (current_thread inn) && is_some (peek (queue inn')).
Proof.
  intros H.
  apply take_body_spec in H as
    [(_ & _ & ?)|[(x' & _ & _ & [(_ & _ & ?)|(_ & _ & ?)])|
      (x' & q & Hp & Hd & Hpop & -> & Ho)]]; try discriminate.
  injection Ho as Hx Hb'. subst. auto 10.
Qed.

Lemma take_body_not_panic tid tnow (inn inn' : Inner T) o :
  take_body le delayed tid tnow inn = (inn', o) -> o <> OPanic.
Proof.
  intros H.
  apply take_body_spec in H as
    [(_ & _ & ->)|[(x' & _ & _ & [(_ & _ & ->)|(_ & _ & ->)])|
      (x' & q & _ & _ & _ & _ & ->)]]; discriminate.
Qed.

Lemma after_body_return_idle tid tnow (x : T) b th th' :
  after_body tid tnow (OReturn x b) th th' -> th' tid = Idle.
Proof.
  simpl. intros Hs. apply signal_woken in Hs.
  destruct (Hs tid) as [->|[[Hw _]|(u & Hw & _)]]; unfold upd in *;
    rewrite decide_True in * by done; congruence.
Qed.

Lemma step_returned s l s' tid x :
  step le eqb delayed s l s' -> returned l = Some (tid, x) ->
  exists inn0 b, queue inn0 = queue (inner s) /\
    take_body le delayed tid (now s) inn0 = (inner s', OReturn x b) /\
    threads s' tid = Idle /\ now s' = now s.
Proof.
  intros Hs Hr.
  destruct Hs as [s tid0 t inn' b th' _ _ _|s tid0 _
                 |s tid0 inn' o th' _ Hb Ha|s tid0 inn' o th' _ Hb Ha
                 |s tid0 u _ _|s n _]; simpl in Hr; try discriminate;
    destruct o as [| |x' b|]; simpl in Hr; try discriminate;
    injection Hr as -> ->; simpl.
  - exists (inner s), b. split; [done|]. split; [done|].
    split; [by eapply after_body_return_idle|done].
  - exists (after_wait_for tid (inner s)), b. split.
    + unfold after_wait_for. by destruct (decide _).
    + split; [done|]. split; [by eapply after_body_return_idle|done].
Qed.

Lemma step_mem s l s' y :
  step le eqb delayed s l s' -> y ∈ queue (inner s) ->
  (exists tid, returned l = Some (tid, y)) \/ y ∈ queue (inner s').
Proof.
  intros Hs Hy.
  assert (Hbody : forall tid tnow (inn inn' : Inner T) o,
    queue inn = queue (inner s) ->
    take_body le delayed tid tnow inn = (inn', o) ->
    (exists b, o = OReturn y b) \/ y ∈ queue inn').
  { intros tid tnow inn inn' o Hq Hb.
    apply take_body_spec in Hb as
      [(_ & -> & _)|[(x' & _ & _ & [(_ & -> & _)|(_ & -> & _)])|
        (x' & q & _ & _ & Hpop & -> & ->)]]; simpl; try (right; congruence).
    apply pop_perm in Hpop. rewrite <- Hq, Hpop in Hy.
    apply elem_of_cons in Hy as [->|Hy]; eauto. }
  destruct Hs as [s tid t inn' b th' _ Hput _|s tid _
                 |s tid inn' o th' _ Hb _|s tid inn' o th' _ Hb _
                 |s tid u _ _|s n _]; simpl; auto.
  - right. unfold put in Hput. injection Hput as <- _. simpl.
    rewrite push_perm. by apply elem_of_cons; right.
  - destruct (Hbody _ _ _ _ _ eq_refl Hb) as [[b ->]|]; eauto.
  - destruct (Hbody tid (now s) (after_wait_for tid (inner s)) inn' o)
      as [[b ->]|]; eauto.
    unfold after_wait_for. by destruct (decide _).
Qed.

Lemma step_put_intro s s' tid t inn' b th' :
  threads s tid = Idle -> put le eqb t (inner s) = (inn', b) ->
  signal b (threads s) th' -> s' = mkSys inn' (now s) th' ->
  step le eqb delayed s (LPut tid t) s'.
Proof. intros ? ? ? ->. by eapply st_put. Qed.

Lemma step_start_intro s s' tid :
  threads s tid = Idle ->
  s' = mkSys (inner s) (now s) (upd (threads s) tid Running) ->
  step le eqb delayed s (LStart tid) s'.
Proof. intros ? ->. by eapply st_start. Qed.

Lemma step_body_intro s s' tid r inn' o th' :
  threads s tid = Running ->
  take_body le delayed tid (now s) (inner s) = (inn', o) ->
  after_body tid (now s) o (threads s) th' -> r = ret_of o ->
  s' = mkSys inn' (now s) th' ->
  step le eqb delayed s (LBody tid r) s'.
Proof. intros ? ? ? -> ->. by eapply st_body. Qed.

Lemma step_resume_intro s s' tid r inn' o th' :
  threads s tid = AfterTimed ->
  take_body le delayed tid (now s) (after_wait_for tid (inner s)) = (inn', o) ->
  after_body tid (now s) o (threads s) th' -> r = ret_of o ->
  s' = mkSys inn' (now s) th' ->
  step le eqb delayed s (LResume tid r) s'.
Proof. intros ? ? ? -> ->. by eapply st_resume. Qed.

Lemma step_timeout_intro s s' tid u :
  threads s tid = WaitTimed u -> (u <= now s)%Z ->
  s' = mkSys (inner s) (now s) (upd (threads s) tid AfterTimed) ->
  step le eqb delayed s (LTimeout tid) s'.
Proof. intros ? ? ->. by eapply st_timeout. Qed.

Lemma step_tick_intro s s' n :
  (now s <= n)%Z -> s' = mkSys (inner s) n (threads s) ->
  step le eqb delayed s LTick s'.
Proof. intros ? ->. by eapply st_tick. Qed.

End SystemProofs.

(* ------------------------------------------------------------------ *)
(** ** The claims *)

Section Claims.
Context {T : Type} (le : T -> T -> bool) (eqb : T -> T -> bool)
  (delayed : T -> Z -> Z).
Hypothesis le_total : forall a b, le a b = true \/ le b a = true.
Hypothesis le_trans : forall a b c,
  le a b = true -> le b c = true -> le a c = true.
Hypothesis eqb_spec : forall a b,
  eqb a b = true <-> le a b = true /\ le b a = true.

(** C1: whenever a [take] call returns an item [x] (in a pass of the loop
    body, possibly right after a timed wait), [x] is the head the pass
    peeked under the lock, its remaining delay [delayed x] evaluated in
    that pass is [<= 0], and the call is over: the thread is out of
    [take].  No item with a strictly positive evaluated delay is ever
    returned. *)
Theorem take_returns_only_due (s s' : Sys T) l tid x :
  step le eqb delayed s l s' -> returned l = Some (tid, x) ->
  inner_peek (inner s) = Some x /\ (delayed x (now s) <= 0)%Z /\
  threads s' tid = Idle.
Proof.
  intros Hs Hr.
  destruct (step_returned le eqb delayed s l s' tid x Hs Hr)
    as (inn0 & b & Hq & Hb & Hidle & _).
  apply take_body_return in Hb as (Hp & Hd & _).
  unfold inner_peek in *. rewrite <- Hq. auto.
Qed.

(** C2: [put t] pushes [t] into the store, leaves the leader slot as it
    is, and calls [notify_one] (once) exactly when [t] is now a minimum
    of the store, i.e. when it became the head up to [==]; otherwise it
    sends no signal. *)
Theorem put_notifies_iff_new_head (s : Inner T) t s' b :
  heap_ok le (queue s) -> put le eqb t s = (s', b) ->
  queue s' = push le (queue s) t /\ current_thread s' = current_thread s /\
  (b = true <-> forall y, y ∈ queue s' -> le t y = true).
Proof.
  intros Hok Hput. unfold put in Hput. injection Hput as <- <-. simpl.
  split; [done|]. split; [done|].
  pose proof (push_ok le le_total le_trans (queue s) t Hok) as Hok'.
  assert (Ht : t ∈ push le (queue s) t)
    by (rewrite push_perm; apply elem_of_cons; by left).
  destruct (peek (push le (queue s) t)) as [h|] eqn:Hh.
  - destruct (peek_min le le_total le_trans _ h Hok' Hh) as [Hin Hmin].
    rewrite eqb_spec. split.
    + intros [_ Hth] y Hy. apply (le_trans _ h); auto.
    + intros Hall. auto.
  - apply peek_None in Hh. rewrite Hh in Ht. by apply not_elem_of_nil in Ht.
Qed.

(** C3: when the head is not due ([0 < delayed]) and no leader is
    designated, the pass of the loop body of thread [tid] records [tid]
    as leader and leaves [tid] in [wait_for] with timeout [now + delayed];
    such a wait ends (by [notify_one] or by the timeout) only into the
    woken state, and the woken thread clears the leader slot exactly
    when it still holds [tid], then runs the loop body again. *)
Theorem take_leader_timed_wait :
  (forall (s s' : Sys T) tid x r,
     threads s tid = Running -> inner_peek (inner s) = Some x ->
     (0 < delayed x (now s))%Z -> current_thread (inner s) = None ->
     step le eqb delayed s (LBody tid r) s' ->
     r = None /\ inner s' = mkInner (queue (inner s)) (Some tid) /\
     threads s' tid = WaitTimed (now s + delayed x (now s))%Z /\
     forall j, j <> tid -> threads s' j = threads s j) /\
  (forall (s s' : Sys T) l tid u,
     threads s tid = WaitTimed u -> step le eqb delayed s l s' ->
     threads s' tid = WaitTimed u \/ threads s' tid = AfterTimed) /\
  (forall (s s' : Sys T) tid r,
     threads s tid = AfterTimed -> step le eqb delayed s (LResume tid r) s' ->
     exists o,
       take_body le delayed tid (now s)
         (if decide (current_thread (inner s) = Some tid)
          then mkInner (queue (inner s)) None else inner s) = (inner s', o) /\
       after_body tid (now s) o (threads s) (threads s')).
Proof.
  split; [|split].
  - intros s s' tid x r Hrun Hp Hd Hc Hs.
    inversion Hs as [| |s0 tid0 inn' o th' _ Hb Ha| | |]; subst.
    unfold take_body in Hb. rewrite Hp in Hb.
    destruct (delayed x (now s) <=? 0)%Z eqn:Hle; [apply Z.leb_le in Hle; lia|].
    rewrite Hc in Hb. injection Hb as <- <-. simpl in Ha. subst th'.
    simpl. split; [done|]. split; [done|]. unfold upd.
    split; [by rewrite decide_True|].
    intros j Hj. by rewrite decide_False.
  - intros s s' l tid u Hw Hs.
    destruct Hs as [s tid0 t inn' b th' Hi _ Hsig|s tid0 Hi
                   |s tid0 inn' o th' Hi Hb Ha|s tid0 inn' o th' Hi Hb Ha
                   |s tid0 u0 Hi Hu|s n Hn]; simpl.
    + apply signal_woken in Hsig.
      destruct (Hsig tid) as [->|[[? _]|(u' & Hu' & ->)]]; auto; congruence.
    + unfold upd. destruct (decide (tid = tid0)) as [->|]; auto; congruence.
    + destruct (decide (tid = tid0)) as [->|Hne]; [congruence|].
      destruct o; simpl in Ha; try (subst th'; unfold upd; rewrite decide_False
        by done; auto).
      apply signal_woken in Ha. destruct (Ha tid) as [->|[[Hx _]|(u' & Hu' & ->)]];
        unfold upd in *; rewrite decide_False in * by done; auto; congruence.
    + destruct (decide (tid = tid0)) as [->|Hne]; [congruence|].
      destruct o; simpl in Ha; try (subst th'; unfold upd; rewrite decide_False
        by done; auto).
      apply signal_woken in Ha. destruct (Ha tid) as [->|[[Hx _]|(u' & Hu' & ->)]];
        unfold upd in *; rewrite decide_False in * by done; auto; congruence.
    + unfold upd. destruct (decide (tid = tid0)) as [->|]; auto.
    + auto.
  - intros s s' tid r Hi Hs.
    inversion Hs as [| | |s0 tid0 inn' o th' _ Hb Ha| |]; subst.
    exists o. split; [|done]. by unfold after_wait_for in Hb.
Qed.

(** C4: in every reachable state at most one thread is in the leader
    designation (in its timed wait, or woken from it and not yet back in
    the loop body), the leader slot names exactly that thread, and a step
    that takes the slot away from thread [j] is [j]'s own resumption
    after its timed wait: neither [put] nor another consumer clears it. *)
Theorem single_leader (s : Sys T) :
  reachable le eqb delayed s ->
  (forall i j, leader_state (threads s i) -> leader_state (threads s j) ->
     i = j) /\
  (forall j, current_thread (inner s) = Some j <->
     leader_state (threads s j)) /\
  (forall l s' j, step le eqb delayed s l s' ->
     current_thread (inner s) = Some j ->
     current_thread (inner s') <> Some j ->
     threads s j = AfterTimed /\ exists r, l = LResume j r).
Proof.
  intros Hr. destruct (reachable_Inv le eqb delayed le_total le_trans s Hr)
    as (_ & Hlead & _).
  split; [|split; [done|]].
  - intros i j Hi Hj. apply Hlead in Hi, Hj. congruence.
  - intros l s' j Hs Hc Hc'.
    assert (Hj : leader_state (threads s j)) by (by apply Hlead).
    destruct Hs as [s tid t inn' b th' Hi Hput _|s tid _
                   |s tid inn' o th' Hi Hb _|s tid inn' o th' Hi Hb _
                   |s tid u _ _|s n _]; simpl in Hc'.
    + unfold put in Hput. injection Hput as <- _. simpl in Hc'. congruence.
    + congruence.
    + apply take_body_spec in Hb as
        [(_ & -> & _)|[(x' & _ & _ & [(_ & -> & _)|(Hn & _ & _)])|
          (x' & q & _ & _ & _ & -> & _)]]; simpl in Hc'; congruence.
    + assert (Ht : current_thread (inner s) = Some tid)
        by (apply Hlead; by rewrite Hi).
      assert (tid = j) as <- by congruence.
      split; [done|]. eauto.
    + congruence.
    + congruence.
Qed.

(** C5: after any sequence of [push] and [pop] from the empty heap (as
    [DelayQueue::default()] builds it), the heap order holds, [peek]
    returns nothing exactly on the empty store, and otherwise returns an
    item of the store that is [<=] every queued item, without removing it
    ([peek] is a read of slot 0); [pop] removes exactly the item [peek]
    shows and keeps the others, and [push] adds exactly the pushed item. *)
Theorem store_peek_is_min (ops : list (store_op T)) :
  let h := run_ops le ops [] in
  heap_ok le h /\
  (peek h = None <-> h = []) /\
  (forall x, peek h = Some x -> x ∈ h /\ forall y, y ∈ h -> le x y = true) /\
  (forall top h', pop le h = Some (top, h') -> peek h = Some top /\ h ≡ₚ top :: h') /\
  (forall x, push le h x ≡ₚ x :: h).
Proof.
  assert (Hok : forall ops (d : list T), heap_ok le d -> heap_ok le (run_ops le ops d)).
  { induction ops0 as [|[x|] ops0 IH]; intros d Hd; simpl; auto.
    - apply IH. by apply push_ok.
    - destruct (pop le d) as [[t d']|] eqn:Hp; apply IH; auto.
      by eapply pop_ok. }
  simpl. assert (Hh : heap_ok le (run_ops le ops [])).
  { apply Hok. intros i a b _ _ Hb. rewrite lookup_nil in Hb. discriminate. }
  split; [done|]. split; [apply peek_None|].
  split; [intros x; by apply peek_min|].
  split.
  - intros top h' Hp. split; [by eapply pop_peek|by eapply pop_perm].
  - intros x. apply push_perm.
Qed.

(** C6: on an empty store a pass of the [take] loop neither peeks a head
    nor pops: it waits indefinitely (the lock is released in the same
    step) and the thread runs the loop again once woken; the [unwrap] of
    [pop] never fails, and no reachable state has a panicked thread. *)
Theorem take_empty_waits :
  (forall tid tnow (inn : Inner T), queue inn = [] ->
     take_body le delayed tid tnow inn = (inn, OWait)) /\
  (forall tid tnow (inn inn' : Inner T) o,
     take_body le delayed tid tnow inn = (inn', o) -> o <> OPanic) /\
  (forall (s s' : Sys T) tid r,
     threads s tid = Running -> queue (inner s) = [] ->
     step le eqb delayed s (LBody tid r) s' ->
     r = None /\ inner s' = inner s /\ threads s' tid = WaitIndef) /\
  (forall (s s' : Sys T) l tid,
     threads s tid = WaitIndef -> step le eqb delayed s l s' ->
     threads s' tid = WaitIndef \/ threads s' tid = Running) /\
  (forall s : Sys T, reachable le eqb delayed s ->
     forall j, threads s j <> Panicked).
Proof.
  split; [|split; [|split; [|split]]].
  - intros tid tnow inn Hq. unfold take_body, inner_peek, peek. by rewrite Hq.
  - apply take_body_not_panic.
  - intros s s' tid r Hrun Hq Hs.
    inversion Hs as [| |s0 tid0 inn' o th' _ Hb Ha| | |]; subst.
    unfold take_body, inner_peek, peek in Hb. rewrite Hq in Hb.
    injection Hb as <- <-. simpl in Ha. subst th'. simpl.
    split; [done|]. split; [done|]. unfold upd. by rewrite decide_True.
  - intros s s' l tid Hw Hs.
    destruct Hs as [s tid0 t inn' b th' Hi _ Hsig|s tid0 Hi
                   |s tid0 inn' o th' Hi Hb Ha|s tid0 inn' o th' Hi Hb Ha
                   |s tid0 u0 Hi Hu|s n Hn]; simpl.
    + apply signal_woken in Hsig.
      destruct (Hsig tid) as [->|[[_ ->]|(u' & Hu' & _)]]; auto; congruence.
    + unfold upd. destruct (decide (tid = tid0)) as [->|]; auto; congruence.
    + destruct (decide (tid = tid0)) as [->|Hne]; [congruence|].
      destruct o; simpl in Ha; try (subst th'; unfold upd; rewrite decide_False
        by done; auto).
      apply signal_woken in Ha. destruct (Ha tid) as [->|[[_ ->]|(u' & Hu' & _)]];
        unfold upd in *; try rewrite decide_False in * by done; auto; congruence.
    + destruct (decide (tid = tid0)) as [->|Hne]; [congruence|].
      destruct o; simpl in Ha; try (subst th'; unfold upd; rewrite decide_False
        by done; auto).
      apply signal_woken in Ha. destruct (Ha tid) as [->|[[_ ->]|(u' & Hu' & _)]];
        unfold upd in *; try rewrite decide_False in * by done; auto; congruence.
    + unfold upd. destruct (decide (tid = tid0)) as [->|]; auto; congruence.
    + auto.
  - intros s Hr. apply (reachable_Inv le eqb delayed le_total le_trans s Hr).
Qed.

(** C7: when a pass of [take] pops a due item [x], the item is the one
    [pop] removes, the leader slot is untouched, [notify_one] is called
    (once) exactly when no leader is designated and the store still holds
    an item, and the call then ends: the thread is out of [take]. *)
Theorem take_pop_notify tid tnow (inn inn' : Inner T) x b :
  take_body le delayed tid tnow inn = (inn', OReturn x b) ->
  pop le (queue inn) = Some (x, queue inn') /\
  current_thread inn' = current_thread inn /\
  (b = true <-> current_thread inn = None /\ queue inn' <> []) /\
  (forall th th', after_body tid tnow (OReturn x b) th th' -> th' tid = Idle).
Proof.
  intros Hb. apply take_body_return in Hb as (_ & _ & Hpop & Hc & ->).
  split; [done|]. split; [done|]. split.
  - destruct (current_thread inn); simpl; [split; [discriminate|intros []; discriminate]|].
    destruct (queue inn') as [|y q] eqn:Hq; simpl; [split; [discriminate|tauto]|].
    split; [intros _; split; [done|discriminate]|done].
  - intros th th'. apply after_body_return_idle.
Qed.

(** C8: take two items with [A < B] ([B <= A] fails), [A] in the store
    of a reachable state.  In any run from there (any puts, any
    consumers), no [take] returns [B] before a [take] has returned [A]:
    delivery follows the item order, not the insertion order. *)
Theorem deadline_order (s s' : Sys T) ls A B :
  reachable le eqb delayed s -> A ∈ queue (inner s) -> le B A = false ->
  steps le eqb delayed s ls s' ->
  forall pre l post tid, ls = pre ++ l :: post -> returned l = Some (tid, B) ->
  exists l' tid', l' ∈ pre /\ returned l' = Some (tid', A).
Proof.
  intros Hr HA HBA Hsteps. revert Hr HA.
  induction Hsteps as [s|s l0 s1 ls s2 Hs Hsteps IH];
    intros Hr HA pre l post tid Hls Hret.
  - destruct pre; discriminate.
  - destruct pre as [|l1 pre'].
    + injection Hls as -> _.
      destruct (step_returned le eqb delayed s l s1 tid B Hs Hret)
        as (inn0 & b & Hq & Hb & _).
      apply take_body_return in Hb as (Hp & _).
      unfold inner_peek in Hp. rewrite Hq in Hp.
      destruct (reachable_Inv le eqb delayed le_total le_trans s Hr) as (Hok & _).
      destruct (peek_min le le_total le_trans _ B Hok Hp) as [_ Hmin].
      rewrite (Hmin A HA) in HBA. discriminate.
    + injection Hls as -> Hls.
      destruct (step_mem le eqb delayed s l1 s1 A Hs HA) as [[tid' Hr']|HA1].
      * exists l1, tid'. split; [by left|done].
      * destruct (IH (reach_step _ _ _ _ _ _ Hr Hs) HA1 pre' l post tid Hls Hret)
          as (l' & tid' & Hin & Hl').
        exists l', tid'. split; [by right|done].
Qed.

(** C9: a [put] step of thread [tid] changes the store only by pushing
    [t], leaves the leader slot and the clock as they are, calls
    [notify_one] at most once (the [signal]), and never waits: the
    calling thread is outside any call before and after it. *)
Theorem put_frame (s s' : Sys T) tid t :
  step le eqb delayed s (LPut tid t) s' ->
  threads s tid = Idle /\ threads s' tid = Idle /\ now s' = now s /\
  current_thread (inner s') = current_thread (inner s) /\
  queue (inner s') = push le (queue (inner s)) t /\
  signal (snd (put le eqb t (inner s))) (threads s) (threads s').
Proof.
  intros Hs. inversion Hs as [s0 tid0 t0 inn' b th' Hi Hput Hsig| | | | |];
    subst; simpl.
  unfold put in Hput |- *. injection Hput as <- Hb. simpl. rewrite Hb.
  split; [done|]. split.
  - apply signal_woken in Hsig.
    destruct (Hsig tid) as [->|[[Hw _]|(u & Hw & _)]]; congruence.
  - auto.
Qed.

(** C10: whenever a [take] call of thread [tid] returns, [tid] is not in
    the leader slot of the resulting state: leadership does not outlive
    the call. *)
Theorem no_leader_after_return (s s' : Sys T) l tid x :
  reachable le eqb delayed s -> step le eqb delayed s l s' ->
  returned l = Some (tid, x) -> current_thread (inner s') <> Some tid.
Proof.
  intros Hr Hs Hret.
  destruct (reachable_Inv le eqb delayed le_total le_trans s'
    (reach_step _ _ _ _ _ _ Hr Hs)) as (_ & Hlead & _).
  destruct (step_returned le eqb delayed s l s' tid x Hs Hret)
    as (_ & _ & _ & _ & Hidle & _).
  rewrite Hlead, Hidle. simpl. tauto.
Qed.

End Claims.

(* ------------------------------------------------------------------ *)
(** * Further properties of the code *)

Section Extras.
Context {T : Type} (le eqb : T -> T -> bool) (delayed : T -> Z -> Z).
Hypothesis le_total : forall a b, le a b = true \/ le b a = true.
Hypothesis le_trans : forall a b c,
  le a b = true -> le b c = true -> le a c = true.
Hypothesis eqb_spec : forall a b,
  eqb a b = true <-> le a b = true /\ le b a = true.

Lemma after_wait_for_queue tid (inn : Inner T) :
  queue (after_wait_for tid inn) = queue inn.
Proof. unfold after_wait_for. by case_decide. Qed.

Lemma body_conserve tid tnow (inn inn' : Inner T) o :
  take_body le delayed tid tnow inn = (inn', o) ->
  queue inn ≡ₚ queue inn' ++ option_list (ret_of o).
Proof.
  intros H. apply take_body_spec in H as
    [(_ & -> & ->)|[(x & _ & _ & [(_ & -> & ->)|(_ & -> & ->)])|
      (x & q & _ & _ & Hp & -> & ->)]]; simpl; rewrite ?app_nil_r; auto.
  rewrite (pop_perm le _ _ _ Hp). apply Permutation_cons_append.
Qed.

Lemma returned_item_run tid (r : option T) :
  returned_item (LBody tid r) = r /\ returned_item (LResume tid r) = r.
Proof. by destruct r. Qed.

Lemma step_conserve (s s' : Sys T) l :
  step le eqb delayed s l s' ->
  queue (inner s) ++ option_list (put_item l) ≡ₚ
  queue (inner s') ++ option_list (returned_item l).
Proof.
  intros Hs.
  destruct Hs as [s tid t inn' b th' _ Hput _|s tid _
                 |s tid inn' o th' _ Hb _|s tid inn' o th' _ Hb _
                 |s tid u _ _|s n _]; simpl; try done.
  - unfold put in Hput. injection Hput as <- _. simpl.
    rewrite app_nil_r, push_perm. symmetry. apply Permutation_cons_append.
  - rewrite (proj1 (returned_item_run tid (ret_of o))), app_nil_r.
    by apply body_conserve in Hb.
  - rewrite (proj2 (returned_item_run tid (ret_of o))), app_nil_r.
    apply body_conserve in Hb. by rewrite after_wait_for_queue in Hb.
Qed.

Lemma omap_cons_split {A B} (f : A -> option B) x l :
  omap f (x :: l) = option_list (f x) ++ omap f l.
Proof. simpl. by destruct (f x). Qed.

(** X1: over any run, the store loses and gains nothing but the items
    [take] returns and [put] adds: the store before, with the items put,
    is a permutation of the store after, with the items returned. *)
Theorem store_conservation (s s' : Sys T) ls :
  steps le eqb delayed s ls s' ->
  queue (inner s) ++ omap put_item ls ≡ₚ
  queue (inner s') ++ omap returned_item ls.
Proof.
  induction 1 as [s|s l s1 ls s2 Hs _ IH]; [done|].
  rewrite !omap_cons_split. apply step_conserve in Hs.
  rewrite app_assoc, Hs, <- app_assoc.
  rewrite (Permutation_app_comm (option_list (returned_item l))).
  rewrite app_assoc, IH, <- app_assoc.
  by rewrite (Permutation_app_comm (omap returned_item ls)).
Qed.

Lemma woken_indef (th th' : ThreadId -> tstate T) i :
  woken th th' -> th' i = WaitIndef -> th i = WaitIndef.
Proof.
  intros Hw Hi. destruct (Hw i) as [<-|[[_ Hr]|(u & _ & Hr)]]; congruence.
Qed.

Lemma woken_running (th th' : ThreadId -> tstate T) i :
  woken th th' -> th i = Running -> th' i = Running.
Proof.
  intros Hw Hi. destruct (Hw i) as [->|[[Hr _]|(u & Hr & _)]]; congruence.
Qed.

Lemma return_wakes (th th' : ThreadId -> tstate T) tid i :
  (forall k u, k <> tid -> th k <> WaitTimed u) ->
  notify_one (upd th tid Idle) th' -> th' i = WaitIndef ->
  exists j, th' j = Running.
Proof.
  intros Hno Hn Hi. destruct Hn as [k Hk|k u Hk|Hn].
  - exists k. unfold upd. by rewrite decide_True.
  - exfalso. unfold upd in Hk. case_decide; [discriminate|].
    by apply (Hno k u).
  - exfalso. apply (Hn i). rewrite Hi. simpl. done.
Qed.

Lemma no_timed_waiter (s : Sys T) tid :
  Inv le s -> current_thread (inner s) = None \/
    current_thread (inner s) = Some tid ->
  forall k u, k <> tid -> threads s k <> WaitTimed u.
Proof.
  intros (_ & Hlead & _) Hc k u Hk Hw.
  assert (Hl : leader_state (threads s k)) by (rewrite Hw; done).
  apply Hlead in Hl. destruct Hc as [Hc|Hc]; congruence.
Qed.

(** The passes of the [take] loop that end with the store non-empty and
    the slot empty notify a waiter. *)
Lemma body_no_lost s tid i (inn0 inn' : Inner T) o th' :
  Inv le s -> queue inn0 = queue (inner s) ->
  (current_thread inn0 = None -> forall k u, k <> tid ->
     threads s k <> WaitTimed u) ->
  take_body le delayed tid (now s) inn0 = (inn', o) ->
  after_body tid (now s) o (threads s) th' ->
  queue inn' <> [] -> th' i = WaitIndef ->
  current_thread inn' <> None \/ exists j, th' j = Running.
Proof.
  intros HI Hq Hno Hb Ha Hne Hi.
  apply take_body_spec in Hb as
    [(Hq0 & -> & ->)|[(x & _ & _ & [((j & Hj) & -> & ->)|(_ & -> & ->)])|
      (x & q & _ & _ & _ & -> & ->)]]; simpl in *.
  - congruence.
  - left. congruence.
  - left. congruence.
  - destruct (current_thread inn0) as [j|] eqn:Hc; [left; congruence|].
    right. destruct q as [|y q]; [done|]. simpl in Ha.
    eapply return_wakes; [|exact Ha|exact Hi]. by apply Hno.
Qed.

(** X2: no lost wake-up.  In every reachable state, if the store is not
    empty and some taker waits without a timeout, then the leader slot is
    taken (by a thread in, or just out of, its timed wait) or some taker is
    running: the non-empty store is never left to takers that wait for a
    notification only. *)
Theorem no_lost_wakeup (s : Sys T) i :
  reachable le eqb delayed s -> queue (inner s) <> [] ->
  threads s i = WaitIndef ->
  current_thread (inner s) <> None \/ exists j, threads s j = Running.
Proof.
  intros Hr. revert i. induction Hr as [t0|s l s' Hr IH Hs].
  { simpl. done. }
  pose proof (reachable_Inv le eqb delayed le_total le_trans s Hr) as HI.
  pose proof HI as (Hok & Hlead & _).
  intros i Hne Hi.
  destruct Hs as [s tid t inn' b th' Hid Hput Hsig|s tid Hid
                 |s tid inn' o th' Hid Hb Ha|s tid inn' o th' Hid Hb Ha
                 |s tid u Hid Hu|s n Hn]; simpl in *.
  - unfold put in Hput. injection Hput as <- <-. simpl in *.
    pose proof (signal_woken _ _ _ Hsig) as Hw.
    destruct (queue (inner s)) as [|y q] eqn:Hq.
    + unfold push, sift_up in Hsig. simpl in Hsig.
      rewrite (proj2 (eqb_spec t t)) in Hsig
        by (split; apply le_refl; exact le_total).
      destruct Hsig as [k Hk|k u Hk|Hn].
      * right. exists k. unfold upd. by rewrite decide_True.
      * left. assert (Hl : leader_state (threads s k)) by (rewrite Hk; done).
        apply Hlead in Hl. congruence.
      * exfalso. apply (Hn i). rewrite Hi. done.
    + destruct (IH i ltac:(done) (woken_indef _ _ _ Hw Hi)) as [Hc|(j & Hj)];
        [by left|right; exists j; by apply (woken_running (threads s))].
  - right. exists tid. unfold upd. by rewrite decide_True.
  - assert (Hc : current_thread (inner s) <> Some tid).
    { intros Hc. apply Hlead in Hc. by rewrite Hid in Hc. }
    eapply (body_no_lost s tid i (inner s)); eauto.
    intros Hn k u Hk. apply (no_timed_waiter s tid HI); auto.
  - assert (Hc : current_thread (inner s) = Some tid)
      by (apply Hlead; by rewrite Hid).
    eapply (body_no_lost s tid i (after_wait_for tid (inner s))); eauto.
    + apply after_wait_for_queue.
    + intros _ k u Hk. apply (no_timed_waiter s tid HI); auto.
  - left. assert (Hl : leader_state (threads s tid)) by (rewrite Hid; done).
    apply Hlead in Hl. congruence.
  - by apply (IH i).
Qed.


(** X4: taking every item of the store, one [pop] after the other, hands
    out each item exactly once, in nondecreasing order. *)
Theorem drain_sorted (d : list T) :
  heap_ok le d ->
  drain le (length d) d ≡ₚ d /\
  Sorted (fun a b => le a b = true) (drain le (length d) d).
Proof.
  remember (length d) as n eqn:Hn. revert d Hn.
  induction n as [|n IH]; intros d Hn Hok.
  { destruct d; [|discriminate]. split; [done|constructor]. }
  simpl. destruct (pop le d) as [[x d']|] eqn:Hp.
  2:{ apply pop_None in Hp. subst. discriminate. }
  pose proof (pop_perm le _ _ _ Hp) as Hperm.
  pose proof (pop_ok le le_total le_trans _ _ _ Hok Hp) as Hok'.
  assert (Hlen : n = length d')
    by (apply Permutation_length in Hperm; simpl in Hperm; lia).
  destruct (IH d' Hlen Hok') as [Hp' Hs'].
  destruct (peek_min le le_total le_trans d x Hok (pop_peek le _ _ _ Hp))
    as [_ Hmin].
  split.
  - rewrite Hp'. by symmetry.
  - constructor; [done|].
    destruct (drain le n d') as [|y ys] eqn:Hd; constructor.
    apply Hmin. rewrite Hperm. apply elem_of_cons. right.
    rewrite <- Hp'. apply elem_of_cons. by left.
Qed.

End Extras.

(** ** The test's [Task]: equality finer than the order *)

Lemma sift_up_fuel_head {T} (le : T -> T -> bool) f start pos (d : list T) x r :
  d !! pos = Some x -> d !! 0 = Some r -> le r x = true ->
  sift_up_fuel le f start pos d !! 0 = Some r.
Proof.
  revert pos d. induction f as [|f IH]; intros pos d Hx Hr Hle; simpl; [done|].
  destruct (start <? pos) eqn:Hsp; [|done].
  apply Nat.ltb_lt in Hsp.
  destruct (d !! pos) as [e|] eqn:He; [|done].
  destruct (d !! parent pos) as [pe|] eqn:Hpe; [|done].
  injection Hx as ->.
  destruct (le pe x) eqn:Hpx; [done|].
  apply IH.
  - eapply swap_lookup_r; eauto.
  - assert (parent pos <> 0).
    { intros H0. rewrite H0 in Hpe. congruence. }
    rewrite swap_lookup_ne by lia. done.
  - done.
Qed.

Lemma Task_le_total a b : Task_le a b = true \/ Task_le b a = true.
Proof. unfold Task_le. rewrite !Z.leb_le. lia. Qed.

Lemma Task_le_trans a b c :
  Task_le a b = true -> Task_le b c = true -> Task_le a c = true.
Proof. unfold Task_le. rewrite !Z.leb_le. lia. Qed.

(** X5: with the test's [Task], whose derived [==] also compares the
    messages while [Ord] compares only the deadlines, a [put] of a task
    with the same deadline as the head but another message does not
    notify, although the new task is a least item of the store: the head
    stays the old task. *)
Theorem Task_tie_no_notify (q : list Task) c h t :
  heap_ok Task_le q -> peek q = Some h ->
  deadline t = deadline h -> message t <> message h ->
  put Task_le Task_eqb t (mkInner q c) =
    (mkInner (push Task_le q t) c, false) /\
  peek (push Task_le q t) = Some h /\
  (forall y, y ∈ push Task_le q t -> Task_le t y = true).
Proof.
  intros Hok Hh Hd Hm.
  assert (Hpk : peek (push Task_le q t) = Some h).
  { unfold push, sift_up, peek.
    apply sift_up_fuel_head with (x := t).
    - rewrite lookup_app_r by lia. by rewrite Nat.sub_diag.
    - destruct q; [discriminate|]. done.
    - unfold Task_le. rewrite Hd. apply Z.leb_refl. }
  split; [|split; [done|]].
  - unfold put. simpl. rewrite Hpk. f_equal.
    unfold Task_eqb. rewrite Hd, Z.eqb_refl. simpl.
    apply String.eqb_neq. congruence.
  - intros y Hy. rewrite push_perm in Hy. apply elem_of_cons in Hy as [->|Hy].
    + unfold Task_le. apply Z.leb_refl.
    + destruct (peek_min Task_le Task_le_total Task_le_trans q h Hok Hh)
        as [_ Hmin].
      specialize (Hmin y Hy). unfold Task_le in *. by rewrite Hd.
Qed.

(** ** The latency histogram *)

Lemma wrap_i32_small z : (0 <= z < 2 ^ 31)%Z -> wrap_i32 z = z.
Proof.
  intros Hz. unfold wrap_i32. rewrite Z.mod_small by lia. lia.
Qed.

Lemma sum_values_app l1 l2 :
  sum_values (l1 ++ l2) = (sum_values l1 + sum_values l2)%Z.
Proof. induction l1 as [|[k v] l1 IH]; simpl; lia. Qed.

Lemma sum_values_perm l1 l2 : l1 ≡ₚ l2 -> sum_values l1 = sum_values l2.
Proof. induction 1; simpl; lia. Qed.

Lemma sum_values_nonneg l :
  (forall kv, kv ∈ l -> (0 <= kv.2)%Z) -> (0 <= sum_values l)%Z.
Proof.
  induction l as [|kv l IH]; intros H; simpl; [lia|].
  assert (0 <= kv.2)%Z by (apply H; apply elem_of_cons; by left).
  assert (0 <= sum_values l)%Z
    by (apply IH; intros kv' Hkv'; apply H; apply elem_of_cons; by right).
  lia.
Qed.

Lemma nonneg_map_list m kv : nonneg_map m -> kv ∈ map_to_list m -> (0 <= kv.2)%Z.
Proof.
  intros Hm Hkv. destruct kv as [k v]. apply elem_of_map_to_list in Hkv.
  by apply (Hm k).
Qed.

Lemma entry_add_sum m k v :
  nonneg_map m -> (0 <= v)%Z ->
  (sum_values (map_to_list m) + v < 2 ^ 31)%Z ->
  nonneg_map (entry_add m k v) /\
  sum_values (map_to_list (entry_add m k v)) =
    (sum_values (map_to_list m) + v)%Z.
Proof.
  intros Hm Hv Hb. unfold entry_add.
  destruct (m !! k) as [o|] eqn:Hk; simpl.
  - pose proof (map_to_list_delete m k o Hk) as Hd.
    rewrite <- (sum_values_perm _ _ Hd) in Hb |- *. simpl in Hb |- *.
    assert (Ho : (0 <= o)%Z) by (by apply (Hm k)).
    assert (0 <= sum_values (map_to_list (delete k m)))%Z.
    { apply sum_values_nonneg. intros [k' v'] Hkv.
      apply elem_of_map_to_list in Hkv. simpl.
      rewrite lookup_delete in Hkv. case_decide; [discriminate|].
      by apply (Hm k'). }
    rewrite wrap_i32_small by lia. split.
    + intros k' v'. rewrite lookup_insert.
      case_decide; [intros [= <-]; lia|apply Hm].
    + rewrite <- insert_delete_eq.
      rewrite (sum_values_perm _ _ (map_to_list_insert _ _ _
        (lookup_delete_eq m k))).
      simpl. lia.
  - rewrite wrap_i32_small by (pose proof (sum_values_nonneg (map_to_list m)
      (fun kv => nonneg_map_list m kv Hm)); lia).
    split.
    + intros k' v'. rewrite lookup_insert.
      case_decide; [intros [= <-]; lia|apply Hm].
    + rewrite (sum_values_perm _ _ (map_to_list_insert _ _ _ Hk)). simpl. lia.
Qed.

Lemma consumer_fold diffs m :
  nonneg_map m ->
  (sum_values (map_to_list m) + Z.of_nat (length diffs) < 2 ^ 31)%Z ->
  let m' := fold_left (fun m diff => entry_add m (bucket diff) 1) diffs m in
  nonneg_map m' /\
  sum_values (map_to_list m') =
    (sum_values (map_to_list m) + Z.of_nat (length diffs))%Z.
Proof.
  revert m. induction diffs as [|d ds IH]; intros m Hm Hb; simpl.
  { split; [done|lia]. }
  simpl in Hb.
  destruct (entry_add_sum m (bucket d) 1 Hm ltac:(lia) ltac:(lia)) as [Hm' Hs].
  destruct (IH _ Hm' ltac:(lia)) as [H1 H2]. split; [done|]. lia.
Qed.

Lemma consumer_map_sum diffs :
  (Z.of_nat (length diffs) < 2 ^ 31)%Z ->
  nonneg_map (consumer_map diffs) /\
  sum_values (map_to_list (consumer_map diffs)) = Z.of_nat (length diffs).
Proof.
  intros Hb. unfold consumer_map.
  assert (H0 : nonneg_map ∅) by (intros k v; by rewrite lookup_empty).
  destruct (consumer_fold diffs ∅ H0) as [H1 H2];
    rewrite map_to_list_empty in *; simpl in *; [lia|].
  split; [done|lia].
Qed.

Lemma merge_inner_fold l acc :
  nonneg_map acc -> (forall kv, kv ∈ l -> (0 <= kv.2)%Z) ->
  (sum_values (map_to_list acc) + sum_values l < 2 ^ 31)%Z ->
  let acc' := fold_left (fun acc kv => entry_add acc kv.1 kv.2) l acc in
  nonneg_map acc' /\
  sum_values (map_to_list acc') = (sum_values (map_to_list acc) + sum_values l)%Z.
Proof.
  revert acc. induction l as [|[k v] l IH]; intros acc Hm Hl Hb; simpl in *.
  { split; [done|lia]. }
  assert (Hv : (0 <= v)%Z) by (apply (Hl (k, v)); apply elem_of_cons; by left).
  assert (0 <= sum_values l)%Z
    by (apply sum_values_nonneg; intros kv Hkv; apply Hl; apply elem_of_cons; by right).
  destruct (entry_add_sum acc k v Hm Hv ltac:(lia)) as [Hm' Hs].
  destruct (IH (entry_add acc k v) Hm') as [H1 H2].
  { intros kv Hkv. apply Hl. apply elem_of_cons. by right. }
  { lia. }
  split; [done|lia].
Qed.

Lemma result_fold l c :
  (0 <= c)%Z -> (forall kv, kv ∈ l -> (0 <= kv.2)%Z) ->
  (c + sum_values l < 2 ^ 31)%Z ->
  fold_left (fun c kv => wrap_i32 (c + kv.2)) l c = (c + sum_values l)%Z.
Proof.
  revert c. induction l as [|[k v] l IH]; intros c Hc Hl Hb; simpl in *; [lia|].
  assert (Hv : (0 <= v)%Z) by (apply (Hl (k, v)); apply elem_of_cons; by left).
  assert (0 <= sum_values l)%Z
    by (apply sum_values_nonneg; intros kv Hkv; apply Hl; apply elem_of_cons; by right).
  rewrite wrap_i32_small by lia. rewrite IH; [lia|lia| |lia].
  intros kv Hkv. apply Hl. apply elem_of_cons. by right.
Qed.




(** * The test instance: tasks are their deadlines *)

Lemma task_le_total a b : task_le a b = true \/ task_le b a = true.
Proof. unfold task_le. rewrite !Z.leb_le. lia. Qed.

Lemma task_le_trans a b c :
  task_le a b = true -> task_le b c = true -> task_le a c = true.
Proof. unfold task_le. rewrite !Z.leb_le. lia. Qed.

Lemma task_eq_spec a b :
  task_eq a b = true <-> task_le a b = true /\ task_le b a = true.
Proof. unfold task_eq, task_le. rewrite Z.eqb_eq, !Z.leb_le. lia. Qed.

Lemma heap_ok_single {T} (le : T -> T -> bool) (x : T) : heap_ok le [x].
Proof.
  intros i a b Hi Ha Hb. destruct i as [|i]; [lia|].
  discriminate.
Qed.

(** ** The scenario, step by step *)
Module ScenarioRun.
Import Scenario.

Ltac no_waiter :=
  intros ?i;
  unfold sc_th12, sc_th11, sc_th9, sc_th8, sc_th7, sc_th6, sc_th4, sc_th3,
    th_idle, upd;
  repeat case_decide; simpl; tauto.

Ltac run_step :=
  first [ eapply step_put_intro | eapply step_start_intro
        | eapply step_body_intro | eapply step_resume_intro ];
  try reflexivity;
  try (cbn [after_body];
       match goal with |- signal ?b _ _ =>
         let b' := eval vm_compute in b in change b with b' end;
       cbn [signal]; apply wake_nobody; no_waiter);
  try reflexivity.

Abbreviation sstep := (step task_le task_eq task_delayed).

Lemma sc_step1 : sstep sc0 (LPut 0 50%Z) sc1.
Proof. run_step. Qed.
Lemma sc_step2 : sstep sc1 (LPut 0 10%Z) sc2.
Proof. run_step. Qed.
Lemma sc_step3 : sstep sc2 (LStart 1) sc3.
Proof. run_step. Qed.
Lemma sc_step4 : sstep sc3 (LBody 1 None) sc4.
Proof. run_step. Qed.
Lemma sc_step5 : sstep sc4 LTick sc5.
Proof. apply (step_tick_intro _ _ _ _ _ 10%Z); [cbn; lia | reflexivity]. Qed.
Lemma sc_step6 : sstep sc5 (LTimeout 1) sc6.
Proof. apply (step_timeout_intro _ _ _ _ _ _ 10%Z); [reflexivity | cbn; lia | reflexivity]. Qed.
Lemma sc_step7 : sstep sc6 (LResume 1 (Some 10%Z)) sc7.
Proof. run_step. Qed.
Lemma sc_step8 : sstep sc7 (LStart 1) sc8.
Proof. run_step. Qed.
Lemma sc_step9 : sstep sc8 (LBody 1 None) sc9.
Proof. run_step. Qed.
Lemma sc_step10 : sstep sc9 LTick sc10.
Proof. apply (step_tick_intro _ _ _ _ _ 50%Z); [cbn; lia | reflexivity]. Qed.
Lemma sc_step11 : sstep sc10 (LTimeout 1) sc11.
Proof. apply (step_timeout_intro _ _ _ _ _ _ 50%Z); [reflexivity | cbn; lia | reflexivity]. Qed.
Lemma sc_step12 : sstep sc11 (LResume 1 (Some 50%Z)) sc12.
Proof. run_step. Qed.

Lemma tw_step2 : sstep sc1 (LStart 1) tw2.
Proof. run_step. Qed.
Lemma tw_step3 : sstep tw2 (LBody 1 None) tw3.
Proof. run_step. Qed.
Lemma tw_step4 : sstep tw3 (LStart 2) tw4.
Proof. run_step. Qed.
Lemma tw_step5 : sstep tw4 (LBody 2 None) tw5.
Proof. run_step. Qed.
Lemma tw_step6 : sstep tw5 (LPut 0 10%Z) tw6.
Proof. run_step. simpl. apply (wake_indef _ 2). reflexivity. Qed.
Lemma tw_step7 : sstep tw6 (LBody 2 None) tw7.
Proof. run_step. Qed.

End ScenarioRun.

Import Scenario ScenarioRun.

Lemma sc_reach2 : reachable task_le task_eq task_delayed sc2.
Proof.
  eapply reach_step; [|exact sc_step2].
  eapply reach_step; [apply reach_init|exact sc_step1].
Qed.

Lemma sc_reach4 : reachable task_le task_eq task_delayed sc4.
Proof.
  eapply reach_step; [|exact sc_step4].
  eapply reach_step; [exact sc_reach2|exact sc_step3].
Qed.

Lemma sc_reach6 : reachable task_le task_eq task_delayed sc6.
Proof.
  eapply reach_step; [|exact sc_step6].
  eapply reach_step; [exact sc_reach4|exact sc_step5].
Qed.

Lemma sc_steps_run : steps task_le task_eq task_delayed sc2 sc_run sc12.
Proof.
  repeat (eapply steps_cons; [|]); [exact sc_step3|exact sc_step4|exact sc_step5|
    exact sc_step6|exact sc_step7|exact sc_step8|exact sc_step9|exact sc_step10|
    exact sc_step11|exact sc_step12|apply steps_nil].
Qed.

(** * Witnesses: each claim's theorem applied to the scenario *)

(** C1: the first [take] returns 10 when it is due at time 10. *)
Lemma take_returns_only_due_witness :
  sstep sc6 (LResume 1 (Some 10%Z)) sc7 /\
  returned (LResume 1 (Some 10%Z)) = Some (1%nat, 10%Z) /\
  inner_peek (inner sc6) = Some 10%Z /\
  (task_delayed 10 (now sc6) <= 0)%Z /\ threads sc7 1 = Idle.
Proof.
  split; [exact sc_step7|]. split; [reflexivity|].
  exact (take_returns_only_due task_le task_eq task_delayed sc6 sc7
    (LResume 1 (Some 10%Z)) 1 10%Z sc_step7 eq_refl).
Defined.

(** C2: putting 10 in front of 50 notifies. *)
Lemma put_notifies_iff_new_head_witness :
  heap_ok task_le [50%Z] /\
  put task_le task_eq 10%Z (mkInner [50%Z] None) =
    (mkInner [10%Z; 50%Z] None, true) /\
  queue (mkInner [10%Z; 50%Z] None) = push task_le [50%Z] 10%Z /\
  current_thread (mkInner [10%Z; 50%Z] None) = @None ThreadId /\
  (true = true <-> forall y, y ∈ [10%Z; 50%Z] -> task_le 10 y = true).
Proof.
  split; [apply heap_ok_single|]. split; [reflexivity|].
  exact (put_notifies_iff_new_head task_le task_eq task_le_total task_le_trans
    task_eq_spec (mkInner [50%Z] None) 10%Z (mkInner [10%Z; 50%Z] None) true
    (heap_ok_single task_le 50%Z) eq_refl).
Defined.

(** C3: the first [take] of the scenario becomes the leader and waits 10. *)
Lemma take_leader_timed_wait_witness :
  threads sc3 1 = Running /\ inner_peek (inner sc3) = Some 10%Z /\
  (0 < task_delayed 10 (now sc3))%Z /\ current_thread (inner sc3) = None /\
  sstep sc3 (LBody 1 None) sc4 /\
  inner sc4 = mkInner (queue (inner sc3)) (Some 1%nat) /\
  threads sc4 1 = WaitTimed (now sc3 + task_delayed 10 (now sc3))%Z.
Proof.
  split; [reflexivity|]. split; [reflexivity|]. split; [vm_compute; reflexivity|].
  split; [reflexivity|]. split; [exact sc_step4|].
  destruct (take_leader_timed_wait task_le task_eq task_delayed) as [H _].
  destruct (H sc3 sc4 1%nat 10%Z None eq_refl eq_refl (eq_refl : (0 ?= 10)%Z = Lt)
    eq_refl sc_step4) as (_ & Hi & Ht & _).
  split; [exact Hi|exact Ht].
Defined.

(** C4: in the scenario state where the consumer waits as leader, it is
    the only leader, and the slot names it. *)
Lemma single_leader_witness :
  reachable task_le task_eq task_delayed sc4 /\
  (forall i j, leader_state (threads sc4 i) -> leader_state (threads sc4 j) ->
     i = j) /\
  current_thread (inner sc4) = Some 1%nat /\ leader_state (threads sc4 1).
Proof.
  split; [exact sc_reach4|].
  destruct (single_leader task_le task_eq task_delayed task_le_total
    task_le_trans sc4 sc_reach4) as (Hu & Hl & _).
  split; [exact Hu|]. split; [reflexivity|]. apply Hl. reflexivity.
Defined.

(** C5: push 50, push 10, pop leaves a heap whose minimum is 50. *)
Lemma store_peek_is_min_witness :
  (forall a b, task_le a b = true \/ task_le b a = true) /\
  (forall a b c, task_le a b = true -> task_le b c = true -> task_le a c = true) /\
  run_ops task_le [OpPush 50%Z; OpPush 10%Z; OpPop] [] = [50%Z] /\
  heap_ok task_le [50%Z] /\
  (forall y, y ∈ [50%Z] -> task_le 50 y = true).
Proof.
  split; [exact task_le_total|]. split; [exact task_le_trans|].
  split; [reflexivity|].
  destruct (store_peek_is_min task_le task_le_total task_le_trans
    [OpPush 50%Z; OpPush 10%Z; OpPop]) as (Hok & _ & Hmin & _).
  split; [exact Hok|]. apply (Hmin 50%Z eq_refl).
Defined.

(** C6: a [take] on the empty store waits, and no thread of the scenario
    ever panics. *)
Lemma take_empty_waits_witness :
  (forall a b, task_le a b = true \/ task_le b a = true) /\
  (forall a b c, task_le a b = true -> task_le b c = true -> task_le a c = true) /\
  take_body task_le task_delayed 1 0 (mkInner [] None) =
    (mkInner [] None, OWait) /\
  (forall j, threads sc6 j <> Panicked).
Proof.
  split; [exact task_le_total|]. split; [exact task_le_trans|].
  destruct (take_empty_waits task_le task_eq task_delayed task_le_total
    task_le_trans) as (He & _ & _ & _ & Hp).
  split; [exact (He 1%nat 0%Z (mkInner [] None) eq_refl)|].
  exact (Hp sc6 sc_reach6).
Defined.

(** C7: the due head 10 is popped, and the next taker is notified
    because 50 is left and no thread leads. *)
Lemma take_pop_notify_witness :
  take_body task_le task_delayed 1 10 (mkInner [10%Z; 50%Z] None) =
    (mkInner [50%Z] None, OReturn 10%Z true) /\
  pop task_le [10%Z; 50%Z] = Some (10%Z, [50%Z]) /\
  (true = true <-> @None ThreadId = None /\ [50%Z] <> []).
Proof.
  split; [reflexivity|].
  destruct (take_pop_notify task_le task_delayed 1 10 (mkInner [10%Z; 50%Z] None)
    (mkInner [50%Z] None) 10%Z true eq_refl) as (Hp & _ & Hb & _).
  split; [exact Hp|exact Hb].
Defined.

(** C8: the task with deadline 50 is returned only after the one with
    deadline 10. *)
Lemma deadline_order_witness :
  reachable task_le task_eq task_delayed sc2 /\ 10%Z ∈ queue (inner sc2) /\
  task_le 50 10 = false /\ steps task_le task_eq task_delayed sc2 sc_run sc12 /\
  exists l' tid', l' ∈ firstn 9 sc_run /\ returned l' = Some (tid', 10%Z).
Proof.
  assert (Hin : 10%Z ∈ queue (inner sc2)) by (simpl; apply elem_of_cons; by left).
  split; [exact sc_reach2|]. split; [exact Hin|]. split; [reflexivity|].
  split; [exact sc_steps_run|].
  exact (deadline_order task_le task_eq task_delayed task_le_total task_le_trans
    sc2 sc12 sc_run 10%Z 50%Z sc_reach2 Hin eq_refl sc_steps_run
    (firstn 9 sc_run) (LResume 1 (Some 50%Z)) [] 1 eq_refl eq_refl).
Defined.

(** C9: the producer's second [put] of the scenario. *)
Lemma put_frame_witness :
  sstep sc1 (LPut 0 10%Z) sc2 /\ threads sc2 0 = Idle /\
  queue (inner sc2) = push task_le (queue (inner sc1)) 10%Z.
Proof.
  split; [exact sc_step2|].
  destruct (put_frame task_le task_eq task_delayed sc1 sc2 0 10%Z sc_step2)
    as (_ & Hi & _ & _ & Hq & _).
  split; [exact Hi|exact Hq].
Defined.

(** C10: after its first [take] returns, the consumer holds no leader slot. *)
Lemma no_leader_after_return_witness :
  reachable task_le task_eq task_delayed sc6 /\
  sstep sc6 (LResume 1 (Some 10%Z)) sc7 /\
  current_thread (inner sc7) <> Some 1%nat.
Proof.
  split; [exact sc_reach6|]. split; [exact sc_step7|].
  exact (no_leader_after_return task_le task_eq task_delayed task_le_total
    task_le_trans sc6 sc7 (LResume 1 (Some 10%Z)) 1 10%Z sc_reach6 sc_step7
    eq_refl).
Defined.

Lemma tw_reach6 : reachable task_le task_eq task_delayed tw6.
Proof.
  assert (H1 : reachable task_le task_eq task_delayed sc1)
    by (eapply reach_step; [apply reach_init|exact sc_step1]).
  eapply reach_step; [|exact tw_step6].
  eapply reach_step; [|exact tw_step5].
  eapply reach_step; [|exact tw_step4].
  eapply reach_step; [|exact tw_step3].
  eapply reach_step; [exact H1|exact tw_step2].
Qed.

Lemma tw_reach7 : reachable task_le task_eq task_delayed tw7.
Proof. eapply reach_step; [exact tw_reach6|exact tw_step7]. Qed.

(** X1: the scenario's run takes out the two items it started with. *)
Lemma store_conservation_witness :
  steps task_le task_eq task_delayed sc2 sc_run sc12 /\
  [10%Z; 50%Z] ++ omap put_item sc_run ≡ₚ [] ++ omap returned_item sc_run /\
  omap returned_item sc_run = [10%Z; 50%Z].
Proof.
  split; [exact sc_steps_run|]. split; [|reflexivity].
  exact (store_conservation task_le task_eq task_delayed sc2 sc12 sc_run
    sc_steps_run).
Defined.

(** X2: in the second scenario the follower waits on a non-empty store, and
    the leader slot is taken. *)
Lemma no_lost_wakeup_witness :
  reachable task_le task_eq task_delayed tw7 /\ queue (inner tw7) <> [] /\
  threads tw7 2 = WaitIndef /\
  (current_thread (inner tw7) <> None \/ exists j, threads tw7 j = Running).
Proof.
  assert (Hq : queue (inner tw7) <> []) by discriminate.
  split; [exact tw_reach7|]. split; [exact Hq|]. split; [reflexivity|].
  exact (no_lost_wakeup task_le task_eq task_delayed task_le_total
    task_le_trans task_eq_spec tw7 2 tw_reach7 Hq eq_refl).
Defined.


(** X4: draining the heap built by pushing 50, 10 and 30. *)
Lemma drain_sorted_witness :
  heap_ok task_le (run_ops task_le [OpPush 50%Z; OpPush 10%Z; OpPush 30%Z] []) /\
  drain task_le 3 (run_ops task_le [OpPush 50%Z; OpPush 10%Z; OpPush 30%Z] []) =
    [10%Z; 30%Z; 50%Z] /\
  Sorted (fun a b => task_le a b = true) [10%Z; 30%Z; 50%Z].
Proof.
  assert (Hok : heap_ok task_le
    (run_ops task_le [OpPush 50%Z; OpPush 10%Z; OpPush 30%Z] [])).
  { simpl. apply (push_ok task_le task_le_total task_le_trans).
    apply (push_ok task_le task_le_total task_le_trans).
    apply heap_ok_single. }
  split; [exact Hok|]. split; [reflexivity|].
  exact (proj2 (drain_sorted task_le task_le_total task_le_trans _ Hok)).
Defined.

(** X5: a head task with deadline 10 and message "a", and a put of a task
    with deadline 10 and message "b". *)
Lemma Task_tie_no_notify_witness :
  heap_ok Task_le [mkTask 10 msg_a] /\
  peek [mkTask 10 msg_a] = Some (mkTask 10 msg_a) /\
  put Task_le Task_eqb (mkTask 10 msg_b)
    (mkInner [mkTask 10 msg_a] None) =
    (mkInner (push Task_le [mkTask 10 msg_a] (mkTask 10 msg_b)) None,
     false).
Proof.
  split; [apply heap_ok_single|]. split; [reflexivity|].
  refine (proj1 (Task_tie_no_notify [mkTask 10 msg_a] None
    (mkTask 10 msg_a) (mkTask 10 msg_b)
    (heap_ok_single Task_le _) eq_refl eq_refl _)).
  discriminate.
Defined.

